(** * Block mapping of the Williams Ultimate File System (indirect.c)

    A shallow embedding of [wufs_get_blk], [retrieve_direct],
    [retrieve_indirect], [wufs_truncate] and [wufs_blocks], with the
    properties of the block mapper stated and proved over it.

    Conventions of the embedding.
    - C integers are [Z]; the narrowing stores of the source ([block_t] is
      an unsigned 16-bit integer, loop counters are [int]) are written out
      with [to_block_t] and [to_int].
    - The inode's pointer array and the pointer array inside a block are
      [list Z], read and written at a [Z] index as the C code indexes them.
    - The buffer cache is a finite map from block number to the pointer
      array held in that block.
    - The collaborators that are not part of indirect.c (block allocator,
      buffer cache, inode dirtying) are calls recorded in a trace, in program
      order, together with the commits of a newly allocated block number.
    - Other threads act through a schedule.  Inside a retry loop, each
      time the routine takes [pointers_lock] or a buffer lock after an
      unlocked test, and each time it jumps back to the test after a lost
      race, the next item of the schedule says what a competitor has stored
      in the contested pointer in the meantime.  These are the windows the
      retry loops are written for; elsewhere the routines run
      undisturbed.
    - The buffer cache and the device are one store: a block has the
      content last written to its buffer.  [printk] output is left out.
    - The page cache is not part of the state.  Of the kernel's
      [block_truncate_page], which [wufs_truncate] calls first, the
      embedding keeps the call it makes back into [wufs_get_blk]. *)

From stdpp Require Import base option list gmap.
From Stdlib Require Import ZArith Lia.

Local Open Scope Z_scope.

(** ** Integer types and errno values *)

(** [typedef __u16 block_t]: storing an [int] keeps its low 16 bits. *)
Definition to_block_t (n : Z) : Z := n mod 65536.

(** Conversion to [unsigned int] (32 bits). *)
Definition to_uint (n : Z) : Z := n mod 4294967296.

(** Conversion of a [long] to [int] (two's complement, 32 bits). *)
Definition to_int (n : Z) : Z := (n + 2147483648) mod 4294967296 - 2147483648.

(** errno values of <asm-generic/errno-base.h>. *)
Definition EIO : Z := 5.
Definition ENOSPC : Z := 28.

(** ** Pointer arrays *)

(** [a[i]]: an access outside the array is undefined in C; the embedding
    reads 0 there. *)
Definition rd (a : list Z) (i : Z) : Z :=
  if i <? 0 then 0 else default 0 (a !! Z.to_nat i).

(** [a[i] = v]: a store outside the array is dropped. *)
Definition wr (a : list Z) (i v : Z) : list Z :=
  if i <? 0 then a else <[Z.to_nat i := v]> a.

(** ** Trace of collaborator calls and pointer stores *)

(** The two kinds of [struct buffer_head] the code handles: the caller's
    result buffer [bh], and the buffer of a block of the device. *)
Inductive bh_id : Type :=
  | BhResult
  | BhBlock (lba : Z).

Inductive event : Type :=
  | ENewBlock (n : Z)                 (* wufs_new_block returned n *)
  | EFreeBlock (n : Z)                (* wufs_free_block(inode, n) *)
  | EGetblk (lba : Z)                 (* sb_getblk *)
  | EBread (lba : Z)                  (* sb_bread *)
  | EBrelse (lba : Z)                 (* brelse *)
  | EBforget (lba : Z)                (* bforget *)
  | ESetBufferNew (b : bh_id)         (* set_buffer_new *)
  | EMapBh (b : bh_id) (lba : Z)      (* map_bh *)
  | EMarkBufferDirty (lba : Z)        (* mark_buffer_dirty_inode *)
  | EMarkInodeDirty                   (* mark_inode_dirty *)
  | EBlockTruncatePage                (* block_truncate_page *)
  | ECommitSlot (i v : Z)             (* *ptr = v, new block in slot i *)
  | ECommitEntry (lba i v : Z).       (* *blk_data = v, in block lba *)

Global Instance bh_id_eq_dec : EqDecision bh_id.
Proof. solve_decision. Defined.

Global Instance event_eq_dec : EqDecision event.
Proof. solve_decision. Defined.

(** ** State *)

(** The caller's [bh]: the BH_New and BH_Mapped bits and the block number. *)
Record buffer_head : Type := mkBh {
  b_new : bool;
  b_mapped : bool;
  b_blocknr : Z
}.

Record state : Type := mkState {
  ini_data : list Z;            (* wufs_i(inode)->ini_data, as block_t[] *)
  i_size : Z;                   (* inode->i_size *)
  i_mtime : Z;                  (* inode->i_mtime *)
  i_ctime : Z;                  (* inode->i_ctime *)
  i_dirty : bool;               (* set by mark_inode_dirty *)
  bufs : gmap Z (list Z);       (* b_data of each block, as block_t[] *)
  pool : list Z;                (* the next answers of wufs_new_block *)
  bh : buffer_head;             (* the caller's bh *)
  trace : list event            (* what the routines did, oldest first *)
}.

Definition set_ini_data (a : list Z) (st : state) : state :=
  mkState a (i_size st) (i_mtime st) (i_ctime st) (i_dirty st)
          (bufs st) (pool st) (bh st) (trace st).

Definition set_bufs (m : gmap Z (list Z)) (st : state) : state :=
  mkState (ini_data st) (i_size st) (i_mtime st) (i_ctime st) (i_dirty st)
          m (pool st) (bh st) (trace st).

Definition set_pool (p : list Z) (st : state) : state :=
  mkState (ini_data st) (i_size st) (i_mtime st) (i_ctime st) (i_dirty st)
          (bufs st) p (bh st) (trace st).

Definition set_bh (b : buffer_head) (st : state) : state :=
  mkState (ini_data st) (i_size st) (i_mtime st) (i_ctime st) (i_dirty st)
          (bufs st) (pool st) b (trace st).

Definition emit (e : event) (st : state) : state :=
  mkState (ini_data st) (i_size st) (i_mtime st) (i_ctime st) (i_dirty st)
          (bufs st) (pool st) (bh st) (trace st ++ [e]).

Definition emits (es : list event) (st : state) : state :=
  mkState (ini_data st) (i_size st) (i_mtime st) (i_ctime st) (i_dirty st)
          (bufs st) (pool st) (bh st) (trace st ++ es).

(** [blk_data[i]] for the buffer of block [lba]. *)
Definition entry (st : state) (lba i : Z) : Z :=
  rd (default [] (bufs st !! lba)) i.

(** ** Collaborators *)

(** [wufs_new_block]: the allocator hands out the next block of [pool];
    0 signals that no block is left. *)
Definition wufs_new_block (st : state) : Z * state :=
  match pool st with
  | [] => (0, emit (ENewBlock 0) st)
  | n :: p => (n, emit (ENewBlock n) (set_pool p st))
  end.

Definition wufs_free_block (n : Z) (st : state) : state :=
  emit (EFreeBlock n) st.

(** [*ptr = n], the commit of a new block to slot [ptr] of the inode. *)
Definition store_slot (ptr n : Z) (st : state) : state :=
  emit (ECommitSlot ptr (to_block_t n))
       (set_ini_data (wr (ini_data st) ptr (to_block_t n)) st).

(** [*blk_data = n], the commit of a new block to entry [i] of block [lba]. *)
Definition store_entry (lba i n : Z) (st : state) : state :=
  emit (ECommitEntry lba i (to_block_t n))
       (set_bufs (alter (fun a => wr a i (to_block_t n)) lba (bufs st)) st).

(** [set_buffer_new(bh)] and [map_bh(bh, sb, lba)] on the caller's [bh]. *)
Definition set_buffer_new (st : state) : state :=
  emit (ESetBufferNew BhResult)
       (set_bh (mkBh true (b_mapped (bh st)) (b_blocknr (bh st))) st).

Definition map_bh (lba : Z) (st : state) : state :=
  emit (EMapBh BhResult lba) (set_bh (mkBh (b_new (bh st)) true lba) st).

(** ** The routines of indirect.c *)

(** [wufs_blocks(size, sb)]: the same quotient with the superblock's
    [s_blocksize], returned as an [unsigned int]. *)
Definition wufs_blocks (size s_blocksize : Z) : Z :=
  to_uint ((size + s_blocksize - 1) ÷ s_blocksize).

Section Wufs.

(** Constants of wufs.h and of the kernel that indirect.c only uses:
    the number of block pointers in an inode, the block size in bytes,
    the superblock's [sbi_max_fblks] and the clock. *)
Variable WUFS_INODE_BPTRS : Z.
Variable WUFS_BLOCKSIZE : Z.
Variable sbi_max_fblks : Z.
Variable CURRENT_TIME_SEC : Z.

(** [inode->i_mtime = inode->i_ctime = CURRENT_TIME_SEC;
    mark_inode_dirty(inode);] *)
Definition touch_inode (st : state) : state :=
  emit EMarkInodeDirty
    (mkState (ini_data st) (i_size st) CURRENT_TIME_SEC CURRENT_TIME_SEC
             true (bufs st) (pool st) (bh st) (trace st)).

(** What a competitor has stored into slot [ptr] of the inode while the
    routine was not holding [pointers_lock]: nothing, or the value [v]. *)
Definition competitor_slot (r : option Z) (ptr : Z) (st : state) : state :=
  set_ini_data
    match r with
    | None => ini_data st
    | Some v => wr (ini_data st) ptr v
    end st.

(** The same for entry [i] of block [lba] and the lock of its buffer. *)
Definition competitor_entry (r : option Z) (lba i : Z) (st : state) : state :=
  set_bufs
    match r with
    | None => bufs st
    | Some v => alter (fun a => wr a i v) lba (bufs st)
    end st.

(** The end of [retrieve_direct]: [map_bh(bh, inode->i_sb, *ptr); return 0]. *)
Definition direct_mapped (ptr : Z) (st : state) : Z * state :=
  (0, map_bh (rd (ini_data st) ptr) st).

(** [retrieve_direct(ptr, inode, create, bh)], [ptr] being the index of the
    slot the C pointer designates.  A pass through [start] that reaches
    [write_lock] takes the head of the schedule: what was stored into the
    slot since the test.  A pass that loses the race takes the next item at
    [goto start]: what was stored into the slot since [write_unlock]; the
    recursive call is the jump.  With the schedule used up nobody stores
    into the slot any more: the jump finds it as it was under the lock,
    non-zero, and falls through to [map_bh]. *)
Fixpoint retrieve_direct (races : list (option Z)) (ptr : Z) (create : bool)
    (st : state) : Z * state :=
  if rd (ini_data st) ptr =? 0 then
    if negb create then (- EIO, st) else
    let '(n, st) := wufs_new_block st in
    if n =? 0 then (- ENOSPC, st) else
    let st := competitor_slot (hd None races) ptr st in
    if negb (rd (ini_data st) ptr =? 0) then
      let st := wufs_free_block n st in
      match races with
      | _ :: r :: races' =>
          retrieve_direct races' ptr create (competitor_slot r ptr st)
      | _ => direct_mapped ptr st
      end
    else
      let st := store_slot ptr n st in
      let st := touch_inode st in
      let st := set_buffer_new st in
      direct_mapped ptr st
  else direct_mapped ptr st.

(** The first half of [retrieve_indirect], from label [start] to the
    [sb_bread]: make sure slot [ptr] names an indirection block.  The
    result is either the value and state of an early [return], or the
    schedule that is left and the state in which the second half runs.
    [data_LBA] is the local variable of that name, which has not been
    assigned when this half runs: its value is whatever the stack holds. *)
Fixpoint indirect_start (races : list (option Z)) (ptr : Z) (create : bool)
    (data_LBA : Z) (st : state) : (Z * state) + (list (option Z) * state) :=
  if rd (ini_data st) ptr =? 0 then
    if negb create then inl (- EIO, st) else
    let '(indirect_LBA, st) := wufs_new_block st in
    if indirect_LBA =? 0 then inl (- ENOSPC, st) else
    let st := emit (EGetblk indirect_LBA) st in
    let st := emit (ESetBufferNew (BhBlock indirect_LBA)) st in
    let st := emit (EMapBh (BhBlock indirect_LBA) indirect_LBA) st in
    let st := competitor_slot (hd None races) ptr st in
    if negb (rd (ini_data st) ptr =? 0) then
      let st := emit (EBforget indirect_LBA) st in
      let st := wufs_free_block indirect_LBA st in
      let st := wufs_free_block data_LBA st in
      match races with
      | _ :: r :: races' =>
          indirect_start races' ptr create data_LBA (competitor_slot r ptr st)
      | _ => inr ([], st)
      end
    else
      let st := store_slot ptr indirect_LBA st in
      let st := emit (EMarkBufferDirty indirect_LBA) st in
      let st := emit (EBrelse indirect_LBA) st in
      let st := touch_inode st in
      inr (tl races, st)
  else inr (races, st).

(** The end of [retrieve_indirect]:
    [set_buffer_new(bh); map_bh(bh, inode->i_sb, data_LBA); return 0]. *)
Definition indirect_mapped (data_LBA : Z) (st : state) : Z * state :=
  (0, map_bh data_LBA (set_buffer_new st)).

(** The second half of [retrieve_indirect], from label [start_indirection]:
    [indir] is the block read by [sb_bread], [block] the index of the
    entry [blk_data] points to.  The schedule is used as in
    [retrieve_direct], at [lock_buffer] and at [goto start_indirection]. *)
Fixpoint indirect_start_indirection (races : list (option Z))
    (indir block : Z) (st : state) : Z * state :=
  if entry st indir block =? 0 then
    let '(data_LBA, st) := wufs_new_block st in
    if data_LBA =? 0 then (- ENOSPC, st) else
    let st := competitor_entry (hd None races) indir block st in
    if negb (entry st indir block =? 0) then
      let st := wufs_free_block data_LBA st in
      match races with
      | _ :: r :: races' =>
          indirect_start_indirection races' indir block
            (competitor_entry r indir block st)
      | _ => indirect_mapped (entry st indir block) st
      end
    else
      let st := store_entry indir block data_LBA st in
      let st := emit (EMarkBufferDirty indir) st in
      let st := emit (EBrelse indir) st in
      indirect_mapped data_LBA st
  else indirect_mapped (entry st indir block) st.

(** [retrieve_indirect(ptr, inode, create, bh, block)]. *)
Definition retrieve_indirect (races : list (option Z)) (ptr : Z)
    (create : bool) (data_LBA : Z) (block : Z) (st : state) : Z * state :=
  match indirect_start races ptr create data_LBA st with
  | inl r => r
  | inr (races, st) =>
      let indir := rd (ini_data st) ptr in
      let st := emit (EBread indir) st in
      indirect_start_indirection races indir block st
  end.

(** [wufs_get_blk(inode, block, bh, create)].  [races] is the schedule of
    the competitors and [junk] the initial content of the local
    [data_LBA] of [retrieve_indirect]. *)
Definition wufs_get_blk (races : list (option Z)) (junk : Z) (block : Z)
    (create : bool) (st : state) : Z * state :=
  if (block <? 0) || (block >=? sbi_max_fblks) then (- EIO, st)
  else if block >=? WUFS_INODE_BPTRS - 1 then
    retrieve_indirect races (WUFS_INODE_BPTRS - 1) create junk
                      (block - (WUFS_INODE_BPTRS - 1)) st
  else retrieve_direct races block create st.

(** The loop body shared by the three loops of [wufs_truncate],
    [for (i = ...; i < limit; i++) { if (a[i]) wufs_free_block(inode, a[i]);
    a[i] = 0; }], run [n] times from index [i]: the array afterwards and
    the blocks handed to [wufs_free_block], in order. *)
Fixpoint release (n : nat) (i : Z) (a : list Z) : list Z * list Z :=
  match n with
  | O => (a, [])
  | S n' =>
      let freed := if rd a i =? 0 then [] else [rd a i] in
      let '(a', freed') := release n' (i + 1) (wr a i 0) in
      (a', freed ++ freed')
  end.

(** The three loops, with their bounds. *)
Definition release_slots (i : Z) (st : state) : state :=
  let '(a, freed) :=
    release (Z.to_nat (WUFS_INODE_BPTRS - 1 - i)) i (ini_data st) in
  emits (EFreeBlock <$> freed) (set_ini_data a st).

Definition release_entries (lba i : Z) (st : state) : state :=
  let n := Z.to_nat (WUFS_BLOCKSIZE ÷ 2 - i) in
  let freed := snd (release n i (default [] (bufs st !! lba))) in
  emits (EFreeBlock <$> freed)
        (set_bufs (alter (fun a => fst (release n i a)) lba (bufs st)) st).

(** The number of blocks a file of [size] bytes needs, as [wufs_truncate]
    computes it into [bcnt]:
    [(inode->i_size + WUFS_BLOCKSIZE - 1) / WUFS_BLOCKSIZE]. *)
Definition blocks_needed (size : Z) : Z :=
  (size + WUFS_BLOCKSIZE - 1) ÷ WUFS_BLOCKSIZE.

(** [block_truncate_page(inode->i_mapping, inode->i_size, wufs_get_blk)],
    the first statement of [wufs_truncate].  The routine is the kernel's
    (fs/buffer.c) and works on the page cache, which is not part of the
    state.  What the embedding keeps of it is the call and the use it makes
    of its third argument: with the size on a block boundary it returns at
    once; otherwise it takes, in the page that holds the end of the file,
    the buffer head of block [i_size / blocksize], and unless that buffer is
    mapped already it calls [wufs_get_blk(inode, i_size / blocksize, bh, 0)]
    on it, once.  [page] is what the kernel finds in the page cache: no
    page ([None], out of memory), or that buffer head.  The callback
    fills the buffer head of the page, not the [bh] of the callers of
    [wufs_get_blk], which is as before when the routine returns; the
    zeroing of the page beyond the size stays in the page cache.  [races]
    and [junk] are the schedule and the stack content that the callback
    meets.  The kernel's block size is [WUFS_BLOCKSIZE]. *)
Definition block_truncate_page (page : option buffer_head)
    (races : list (option Z)) (junk : Z) (st : state) : state :=
  let st := emit EBlockTruncatePage st in
  if i_size st mod WUFS_BLOCKSIZE =? 0 then st else
  match page with
  | None => st
  | Some page_bh =>
      if b_mapped page_bh then st else
      let caller_bh := bh st in
      let iblock := i_size st / WUFS_BLOCKSIZE in
      let '(_, st) := wufs_get_blk races junk iblock false (set_bh page_bh st) in
      set_bh caller_bh st
  end.

(** [wufs_truncate(inode)] from [write_lock(&pointers_lock)] to the end:
    the loops and the stamping of the inode.  No competitor is scheduled
    inside this part.  The loops index the arrays as the C code does.
    Where the C code would index outside the pointer array of the inode
    (a negative size, an inode without its [WUFS_INODE_BPTRS] pointers) its
    behaviour is undefined, and [rd] and [wr] say nothing about it: every
    statement about [wufs_truncate] assumes [truncate_ready], which
    excludes these inodes. *)
Definition truncate_pointers (st : state) : state :=
  let bcnt := (i_size st + WUFS_BLOCKSIZE - 1) ÷ WUFS_BLOCKSIZE in
  let st :=
    if bcnt <? WUFS_INODE_BPTRS then
      let st := release_slots (to_int bcnt) st in
      let indirect_LBA := rd (ini_data st) (WUFS_INODE_BPTRS - 1) in
      if negb (indirect_LBA =? 0) then
        let st := emit (EBread indirect_LBA) st in
        let st := release_entries indirect_LBA 0 st in
        let st := set_ini_data (wr (ini_data st) (WUFS_INODE_BPTRS - 1) 0) st in
        let st := wufs_free_block indirect_LBA st in
        emit (EBforget indirect_LBA) st
      else st
    else
      let bcnt := bcnt - (WUFS_INODE_BPTRS - 1) in
      let indirect_LBA := rd (ini_data st) (WUFS_INODE_BPTRS - 1) in
      let st := emit (EBread indirect_LBA) st in
      let st := release_entries indirect_LBA (to_int bcnt) st in
      let st := emit (EMarkBufferDirty indirect_LBA) st in
      emit (EBrelse indirect_LBA) st
  in
  touch_inode st.

(** [wufs_truncate(inode)].  [page], [races] and [junk] are what
    [block_truncate_page] and its callback meet. *)
Definition wufs_truncate (page : option buffer_head)
    (races : list (option Z)) (junk : Z) (st : state) : state :=
  truncate_pointers (block_truncate_page page races junk st).

(** ** Vocabulary of the statements *)

(** Logical block [b] is a hole: its direct slot holds 0, or the indirect
    slot holds 0, or its entry of the indirection block holds 0. *)
Definition hole (st : state) (b : Z) : bool :=
  if b <? WUFS_INODE_BPTRS - 1 then rd (ini_data st) b =? 0
  else (rd (ini_data st) (WUFS_INODE_BPTRS - 1) =? 0)
       || (entry st (rd (ini_data st) (WUFS_INODE_BPTRS - 1))
                 (b - (WUFS_INODE_BPTRS - 1)) =? 0).

(** The slot of the inode that [wufs_get_blk] looks at for logical block
    [b]: its direct slot, or the indirect slot. *)
Definition slot_of (b : Z) : Z :=
  if b <? WUFS_INODE_BPTRS - 1 then b else WUFS_INODE_BPTRS - 1.

(** The non-zero pointers among [a[i]], ..., [a[i+n-1]], in this order. *)
Definition live (a : list Z) (i : Z) (n : nat) : list Z :=
  filter (fun v => v <> 0) (rd a <$> seqZ i (Z.of_nat n)).

(** The events [new] are what a routine added to the trace between [st]
    and [st']. *)
Definition extends (st st' : state) (new : list event) : Prop :=
  trace st' = trace st ++ new.

(** What [wufs_truncate] relies on: the inode has [WUFS_INODE_BPTRS]
    pointers, of which at least the indirect one; blocks are not empty; the
    size is not negative and the number of blocks it needs fits an [int]. *)
Definition truncate_ready (st : state) : Prop :=
  Z.of_nat (length (ini_data st)) = WUFS_INODE_BPTRS /\
  1 <= WUFS_INODE_BPTRS /\
  0 < WUFS_BLOCKSIZE /\
  0 <= i_size st /\
  blocks_needed (i_size st) < 2147483648.

(** The inode's timestamps and dirty flag are those of [st]. *)
Definition inode_untouched (st st' : state) : Prop :=
  i_mtime st' = i_mtime st /\ i_ctime st' = i_ctime st /\
  i_dirty st' = i_dirty st.

(** The inode has been stamped with the current time and marked dirty. *)
Definition inode_touched (st' : state) : Prop :=
  i_mtime st' = CURRENT_TIME_SEC /\ i_ctime st' = CURRENT_TIME_SEC /\
  i_dirty st' = true.

(** In [new], [mark_inode_dirty] is called before the caller's [bh] is
    flagged as new. *)
Definition dirty_before_new (new : list event) : Prop :=
  exists pre post, new = pre ++ post /\
    (EMarkInodeDirty ∈ pre) /\ (ESetBufferNew BhResult ∉ pre).

(** Allocator accounting over a list of events: blocks obtained from
    [wufs_new_block], blocks handed to [wufs_free_block], blocks committed
    to a slot or to an entry. *)
Definition is_alloc (e : event) : bool :=
  match e with
  | ENewBlock n => negb (n =? 0)
  | _ => false
  end.

Definition is_free (e : event) : bool :=
  match e with
  | EFreeBlock _ => true
  | _ => false
  end.

Definition is_commit (e : event) : bool :=
  match e with
  | ECommitSlot _ _ | ECommitEntry _ _ _ => true
  | _ => false
  end.

Fixpoint count (f : event -> bool) (new : list event) : nat :=
  match new with
  | [] => O
  | e :: new => ((if f e then 1 else 0) + count f new)%nat
  end.

(** Events of a lost race: nothing in [new] commits a block, dirties the
    inode, flags the caller's [bh] or reports exhaustion. *)
Definition quiet (new : list event) : Prop :=
  (forall i v, ECommitSlot i v ∉ new) /\
  (forall lba i v, ECommitEntry lba i v ∉ new) /\
  (EMarkInodeDirty ∉ new) /\ (ESetBufferNew BhResult ∉ new) /\
  (ENewBlock 0 ∉ new).

(** What the inode owes to the events [new] of a run from [st] to [st']:
    with a commit to one of its slots it is stamped and marked dirty, and
    that before [bh] is flagged as new; without one it is as before, and
    every commit to an entry of a block has that block's buffer marked
    dirty. *)
Definition inode_rule (st st' : state) (new : list event) : Prop :=
  ((exists i v, ECommitSlot i v ∈ new) ->
     inode_touched st' /\ dirty_before_new new) /\
  ((forall i v, ECommitSlot i v ∉ new) ->
     inode_untouched st st' /\ (EMarkInodeDirty ∉ new) /\
     forall lba i v, ECommitEntry lba i v ∈ new -> EMarkBufferDirty lba ∈ new).

(** Summary of a run of [retrieve_direct] on slot [ptr]. *)
Definition direct_summary (ptr : Z) (st : state) (rc : Z) (st' : state)
    (new : list event) : Prop :=
  bufs st' = bufs st /\
  (ENewBlock 0 ∈ new -> rc = - ENOSPC /\ rd (ini_data st') ptr = 0) /\
  (forall lba i v, ECommitEntry lba i v ∉ new) /\
  (b_new (bh st) = false ->
     b_new (bh st') = true <-> exists v, ECommitSlot ptr v ∈ new) /\
  inode_rule st st' new.

(** The value of an early [return] of the first half of
    [retrieve_indirect], if any, and the state it ends in. *)
Definition start_rc (r : (Z * state) + (list (option Z) * state)) : option Z :=
  match r with
  | inl (rc, _) => Some rc
  | inr _ => None
  end.

Definition start_state (r : (Z * state) + (list (option Z) * state)) : state :=
  match r with
  | inl (_, st) | inr (_, st) => st
  end.

(** Summary of a run of the first half of [retrieve_indirect]: [rc] is the
    value of an early [return], if any. *)
Definition start_summary (ptr : Z) (st : state) (rc : option Z) (st' : state)
    (new : list event) : Prop :=
  bufs st' = bufs st /\ bh st' = bh st /\
  (ESetBufferNew BhResult ∉ new) /\
  (forall lba i v, ECommitEntry lba i v ∉ new) /\
  match rc with
  | Some rc =>
      rd (ini_data st') ptr = 0 /\ (ENewBlock 0 ∈ new -> rc = - ENOSPC) /\
      (rc = - EIO \/ rc = - ENOSPC)
  | None => ENewBlock 0 ∉ new
  end /\
  (((exists i v, ECommitSlot i v ∈ new) /\ inode_touched st' /\
    (EMarkInodeDirty ∈ new))
   \/ ((forall i v, ECommitSlot i v ∉ new) /\ inode_untouched st st' /\
       (EMarkInodeDirty ∉ new))).

(** Summary of a run of the second half of [retrieve_indirect] on entry
    [block] of block [indir]. *)
Definition indirection_summary (indir block : Z) (st : state) (rc : Z)
    (st' : state) (new : list event) : Prop :=
  ini_data st' = ini_data st /\ inode_untouched st st' /\
  (forall i v, ECommitSlot i v ∉ new) /\ (EMarkInodeDirty ∉ new) /\
  (ENewBlock 0 ∈ new -> rc = - ENOSPC /\ entry st' indir block = 0) /\
  (forall lba i v, ECommitEntry lba i v ∈ new -> EMarkBufferDirty lba ∈ new) /\
  (rc = 0 -> b_new (bh st') = true).

(** The pointer that logical block [b] is mapped by: its direct slot, or
    its entry in the block the indirect slot names. *)
Definition mapping (st : state) (b : Z) : Z :=
  if b <? WUFS_INODE_BPTRS - 1 then rd (ini_data st) b
  else entry st (rd (ini_data st) (WUFS_INODE_BPTRS - 1))
             (b - (WUFS_INODE_BPTRS - 1)).


(** The allocator only hands out block numbers that fit a [block_t] and
    are not the sentinel 0. *)
Definition pool_ok (st : state) : Prop :=
  Forall (fun n => 0 < n < 65536) (pool st).

(** What a caller of [wufs_get_blk] can rely on: the value returned is 0,
    [-EIO] or [-ENOSPC]; on an error [bh] is as it was; on success [bh] is
    mapped. *)
Definition bh_rule (st : state) (rc : Z) (st' : state) : Prop :=
  (rc = 0 \/ rc = - EIO \/ rc = - ENOSPC) /\
  (rc <> 0 -> bh st' = bh st) /\
  (rc = 0 -> b_mapped (bh st') = true).

(** From [st] to [st'] the inode keeps its size, the length of its pointer
    array and every slot but [ptr]. *)
Definition slots_kept (ptr : Z) (st st' : state) : Prop :=
  i_size st' = i_size st /\
  length (ini_data st') = length (ini_data st) /\
  forall j, j <> ptr -> rd (ini_data st') j = rd (ini_data st) j.

(** From [st] to [st'] every block but [indir] keeps its content, and
    block [indir] every entry but [block]. *)
Definition blocks_kept (indir block : Z) (st st' : state) : Prop :=
  (forall lba, lba <> indir -> bufs st' !! lba = bufs st !! lba) /\
  (forall j, j <> block -> entry st' indir j = entry st indir j).

(** Block [indir] is in the cache and has an entry of index [block]. *)
Definition entry_in_block (st : state) (indir block : Z) : Prop :=
  exists a, bufs st !! indir = Some a /\ 0 <= block < Z.of_nat (length a).

(** The events [cb] of a call of [wufs_get_blk] made with [create = 0] on
    the block whose entry in block [ind] has index [k]: reads and writes of
    block [ind]'s buffer, the flagging and mapping of the buffer head that
    was passed, blocks obtained from the allocator, candidates handed back
    to it, and commits to that one entry. *)
Definition lookup_events (ind k : Z) (cb : list event) : Prop :=
  forall e, e ∈ cb ->
    e = EBread ind \/ e = EBrelse ind \/ e = EMarkBufferDirty ind \/
    e = ESetBufferNew BhResult \/ (exists v, e = EMapBh BhResult v) \/
    (exists n, e = ENewBlock n) \/
    (exists v, e = EFreeBlock v /\ v <> 0 /\ ENewBlock v ∈ cb) \/
    (exists v, e = ECommitEntry ind k v).

(** The events of a call that found the block mapped, or failed, without
    going to the allocator. *)
Definition lookup_only (ind : Z) (cb : list event) : Prop :=
  forall e, e ∈ cb ->
    e = EBread ind \/ e = ESetBufferNew BhResult \/
    exists v, e = EMapBh BhResult v.

(** The logical block that holds the end of a file of [size] bytes when
    [size] is not on a block boundary. *)
Definition last_block (size : Z) : Z := size / WUFS_BLOCKSIZE.

(** ** Inodes of the examples

    The examples run with 8 pointers per inode, blocks of 8 bytes (4
    pointers per block), 11 blocks per file at most, and the clock at 1000.
    Every inode starts with both timestamps at 5, clean, with an unmapped
    [bh] and an empty trace. *)
Definition toy_inode (ptrs : list Z) (blocks : gmap Z (list Z))
    (free : list Z) (size : Z) : state :=
  mkState ptrs size 5 5 false blocks free (mkBh false false 0) [].

(** Logical block 7 is a hole inside an indirection block that exists. *)
Definition inode_hole_entry : state :=
  toy_inode [10; 11; 0; 0; 0; 0; 16; 20] {[ 20 := [0; 0; 0; 0] ]} [21] 64.

(** Logical block 7 is mapped to block 21. *)
Definition inode_mapped_entry : state :=
  toy_inode [10; 11; 0; 0; 0; 0; 16; 20] {[ 20 := [21; 0; 0; 0] ]} [22] 64.

(** An empty file; block 30 is the indirection block a competitor is about
    to commit. *)
Definition inode_empty_raced : state :=
  toy_inode [0; 0; 0; 0; 0; 0; 0; 0] {[ 30 := [0; 0; 0; 0] ]} [20; 21] 0.

(** An empty file; block 20, the next the allocator gives, was a data block
    before and still starts with the bytes of the number 99. *)
Definition inode_empty_stale : state :=
  toy_inode [0; 0; 0; 0; 0; 0; 0; 0] {[ 20 := [99; 0; 0; 0] ]} [20; 21] 0.

(** The allocator has nothing left. *)
Definition inode_no_space : state :=
  toy_inode [10; 11; 0; 0; 0; 0; 16; 20] {[ 20 := [0; 0; 0; 0] ]} [] 64.

(** A file of 11 blocks, but for a hole, cut to 72 bytes, that is 9 blocks. *)
Definition inode_shrunk_large : state :=
  toy_inode [10; 11; 12; 13; 14; 15; 16; 20] {[ 20 := [21; 22; 0; 23] ]} [] 72.

(** A file with holes cut to 16 bytes, that is 2 blocks. *)
Definition inode_shrunk_small : state :=
  toy_inode [10; 11; 12; 0; 14; 0; 16; 20] {[ 20 := [21; 0; 22; 0] ]} [] 16.

(** A sparse file of 72 bytes with nothing beyond its first block; block 0
    of the device holds 5, 6, 7, 8. *)
Definition inode_sparse : state :=
  toy_inode [10; 0; 0; 0; 0; 0; 0; 0] {[ 0 := [5; 6; 7; 8] ]} [] 72.

(** A file of 16 bytes that never reached the indirect range. *)
Definition inode_direct_only : state :=
  toy_inode [10; 11; 12; 0; 0; 0; 0; 0] {[ 0 := [5; 6; 7; 8] ]} [] 16.

(** A file of 11 blocks but for a hole at logical block 7, the first entry
    of its indirection block, cut to 60 bytes: 8 blocks, the last of them
    the hole, and the size not on a block boundary. *)
Definition inode_shrunk_unaligned : state :=
  toy_inode [10; 11; 12; 13; 14; 15; 16; 20] {[ 20 := [0; 22; 23; 24] ]} [21] 60.

(** A file with holes cut to 12 bytes: 2 blocks, the size not on a block
    boundary. *)
Definition inode_shrunk_small_unaligned : state :=
  toy_inode [10; 11; 12; 0; 14; 0; 16; 20] {[ 20 := [21; 0; 22; 0] ]} [30] 12.

(** An empty file, and an allocator with one block left, block 20. *)
Definition inode_last_block : state :=
  toy_inode [0; 0; 0; 0; 0; 0; 0; 0] {[ 20 := [0; 0; 0; 0] ]} [20] 0.

(** The buffer head of a page whose block has not been mapped yet. *)
Definition page_unmapped : buffer_head := mkBh false false 0.

(** ** Tactics

    The proofs about [wufs_get_blk] run the routine symbolically: they
    split on every test of the code, read the events of each run off the
    final state, and decide membership in the explicit list. *)

(** Membership in an explicit list of events. *)
Ltac mem :=
  repeat (rewrite ?elem_of_app, ?elem_of_cons, ?elem_of_nil in * );
  solve [intuition congruence].

(** The trace of a state built by the routines, as the old trace followed
    by an explicit list. *)
Ltac trace_eq :=
  unfold extends; cbn; repeat rewrite <- app_assoc;
  first [reflexivity | symmetry; apply app_nil_r].

(** Replace the events of a run by the list read off the final state. *)
Ltac read_new :=
  match goal with
  | H : extends ?st ?st' ?new |- _ =>
      let H' := fresh in
      eassert (H' : extends st st' _) by trace_eq;
      unfold extends in H, H'; rewrite H in H';
      apply app_inv_head in H'; subst new; clear H
  end.

(** Split on every test of the code. *)
Ltac split_ifs :=
  repeat match goal with
         | |- context [if ?c then _ else _] => destruct c eqn:?
         end.

(** Turn the outcome of the tests into equations on [Z]. *)
Ltac tests_to_Z :=
  repeat match goal with
         | H : negb _ = true |- _ => apply negb_true_iff in H
         | H : negb _ = false |- _ => apply negb_false_iff in H
         | H : (_ =? _) = true |- _ => apply Z.eqb_eq in H
         | H : (_ =? _) = false |- _ => apply Z.eqb_neq in H
         end.

(** Find an event of a given shape in an explicit list. *)
Ltac find_event :=
  cbn; repeat first [apply list_elem_of_here | apply list_elem_of_further].

(** Cut an explicit list of events after its first [k] events. *)
Ltac cut_after k :=
  match goal with
  | |- dirty_before_new ?new =>
      exists (take k new), (drop k new);
      split; [symmetry; apply take_drop|]; cbn; split; mem
  end.

(** One conjunct of the summary of a run, on an explicit list of events. *)
Ltac solve_atom :=
  first
    [ done
    | congruence
    | solve [mem]
    | solve [exfalso; mem]
    | solve [exfalso;
             match goal with
             | H : forall i v, ECommitSlot i v ∉ _ |- _ => eapply H; find_event
             end]
    | solve [eexists; find_event]
    | solve [eexists; eexists; find_event]
    | solve [cut_after 3%nat]
    | solve [cut_after 8%nat] ].

(** The summary of a run that ends at once, read off its final state. *)
Ltac summary_leaf :=
  eexists; split; [trace_eq|]; tests_to_Z;
  unfold direct_summary, start_summary, indirection_summary, inode_rule,
    inode_touched, inode_untouched, entry in *;
  cbn in *;
  repeat match goal with
         | |- _ /\ _ => split
         | |- _ <-> _ => split
         | |- forall _, _ => intro
         | H : exists _, _ |- _ => destruct H
         end;
  first [ solve_atom
        | solve [left; repeat split; solve_atom]
        | solve [right; repeat split; try intros ? ?; solve_atom] ].

(** ** Pointer arrays: reading after writing *)

Lemma rd_wr_same (a : list Z) (i v : Z) :
  0 <= i < Z.of_nat (length a) -> rd (wr a i v) i = v.
Proof.
  intros [Hlo Hhi]. unfold rd, wr.
  destruct (i <? 0) eqn:E; [apply Z.ltb_lt in E; lia|].
  rewrite list_lookup_insert_eq; [done | lia].
Qed.

Lemma rd_wr_other (a : list Z) (i j v : Z) :
  i <> j -> rd (wr a i v) j = rd a j.
Proof.
  intros Hne. unfold rd, wr.
  destruct (j <? 0) eqn:Ej; [done|].
  destruct (i <? 0) eqn:Ei; [done|].
  apply Z.ltb_ge in Ej, Ei.
  rewrite list_lookup_insert_ne; [done | lia].
Qed.

Lemma rd_wr_zero (a : list Z) (i j : Z) :
  rd (wr a i 0) j = if decide (i = j) then 0 else rd a j.
Proof.
  case_decide as H; [subst j | by apply rd_wr_other].
  unfold rd, wr. destruct (i <? 0) eqn:Ei; [done|].
  destruct (decide (Z.to_nat i < length a)%nat) as [Hlt|Hge].
  - by rewrite list_lookup_insert_eq.
  - rewrite list_insert_ge by lia. rewrite lookup_ge_None_2; [done | lia].
Qed.

Lemma length_wr (a : list Z) (i v : Z) : length (wr a i v) = length a.
Proof. unfold wr. destruct (i <? 0); [done | apply length_insert]. Qed.

Lemma rd_outside (a : list Z) (i : Z) :
  Z.of_nat (length a) <= i -> rd a i = 0.
Proof.
  intros H. unfold rd. destruct (i <? 0); [done|].
  rewrite lookup_ge_None_2; [done | lia].
Qed.

(** ** The loop of [wufs_truncate] *)

Lemma release_length (n : nat) (i : Z) (a : list Z) :
  length (fst (release n i a)) = length a.
Proof.
  revert i a. induction n as [|n IH]; intros i a; simpl; [done|].
  specialize (IH (i + 1) (wr a i 0)).
  destruct (release n (i + 1) (wr a i 0)) as [a' f']. simpl in *.
  by rewrite IH, length_wr.
Qed.

(** After the loop the entries it went over are 0, the others are as
    before. *)
Lemma release_rd (n : nat) (i j : Z) (a : list Z) :
  rd (fst (release n i a)) j =
  if decide (i <= j < i + Z.of_nat n) then 0 else rd a j.
Proof.
  revert i a. induction n as [|n IH]; intros i a; simpl.
  - case_decide; [lia | done].
  - specialize (IH (i + 1) (wr a i 0)).
    destruct (release n (i + 1) (wr a i 0)) as [a' f']. simpl in *.
    rewrite IH, rd_wr_zero. repeat case_decide; try done; lia.
Qed.

(** The loop hands to [wufs_free_block] the non-zero pointers it went
    over, each once, in index order. *)
Lemma release_freed (n : nat) (i : Z) (a : list Z) :
  snd (release n i a) = live a i n.
Proof.
  revert i a. induction n as [|n IH]; intros i a; [done|].
  simpl. specialize (IH (i + 1) (wr a i 0)).
  destruct (release n (i + 1) (wr a i 0)) as [a' f']. simpl in *.
  unfold live in *. rewrite Nat2Z.inj_succ, seqZ_cons by lia.
  rewrite Z.pred_succ, fmap_cons, filter_cons, IH.
  replace (Z.succ i) with (i + 1) by lia.
  assert (Hsame : rd (wr a i 0) <$> seqZ (i + 1) (Z.of_nat n)
                  = rd a <$> seqZ (i + 1) (Z.of_nat n)).
  { apply list_fmap_ext. intros k x Hx.
    apply lookup_seqZ in Hx as [-> _]. apply rd_wr_other. lia. }
  rewrite Hsame.
  destruct (rd a i =? 0) eqn:E.
  - apply Z.eqb_eq in E. case_decide; [lia | done].
  - apply Z.eqb_neq in E. case_decide; [done | lia].
Qed.

Lemma to_int_small (n : Z) :
  -2147483648 <= n < 2147483648 -> to_int n = n.
Proof.
  intros H. unfold to_int.
  rewrite Z.mod_small by lia. lia.
Qed.

(** In the range of [truncate_ready], [wufs_blocks] is [blocks_needed]. *)
Lemma wufs_blocks_small (size : Z) :
  0 <= blocks_needed size < 4294967296 ->
  wufs_blocks size WUFS_BLOCKSIZE = blocks_needed size.
Proof. intros H. unfold wufs_blocks, to_uint. by apply Z.mod_small. Qed.

(** [blocks_needed] is the ceiling of [size / WUFS_BLOCKSIZE]. *)
Lemma blocks_needed_ceil (size : Z) :
  0 < WUFS_BLOCKSIZE -> 0 <= size ->
  (blocks_needed size - 1) * WUFS_BLOCKSIZE < size <= blocks_needed size * WUFS_BLOCKSIZE.
Proof.
  intros Hb Hs. unfold blocks_needed.
  rewrite Z.quot_div_nonneg by lia.
  pose proof (Z.div_mod (size + WUFS_BLOCKSIZE - 1) WUFS_BLOCKSIZE ltac:(lia)).
  pose proof (Z.mod_pos_bound (size + WUFS_BLOCKSIZE - 1) WUFS_BLOCKSIZE Hb).
  nia.
Qed.

Lemma release_slots_ini (i : Z) (st : state) :
  ini_data (release_slots i st)
  = fst (release (Z.to_nat (WUFS_INODE_BPTRS - 1 - i)) i (ini_data st)).
Proof. unfold release_slots. by destruct (release _ _ _). Qed.

Lemma release_slots_bufs (i : Z) (st : state) :
  bufs (release_slots i st) = bufs st.
Proof. unfold release_slots. by destruct (release _ _ _). Qed.

Lemma release_slots_trace (i : Z) (st : state) :
  trace (release_slots i st)
  = trace st ++ (EFreeBlock <$>
      live (ini_data st) i (Z.to_nat (WUFS_INODE_BPTRS - 1 - i))).
Proof.
  unfold release_slots. rewrite <- release_freed.
  by destruct (release _ _ _).
Qed.

Lemma truncate_small (st : state) :
  truncate_ready st ->
  blocks_needed (i_size st) <= WUFS_INODE_BPTRS - 1 ->
  let needed := blocks_needed (i_size st) in
  let ind := rd (ini_data st) (WUFS_INODE_BPTRS - 1) in
  let nS := Z.to_nat (WUFS_INODE_BPTRS - 1 - needed) in
  let nM := Z.to_nat (WUFS_BLOCKSIZE ÷ 2 - 0) in
  let st' := truncate_pointers st in
  ini_data st' =
    (if ind =? 0 then fst (release nS needed (ini_data st))
     else wr (fst (release nS needed (ini_data st))) (WUFS_INODE_BPTRS - 1) 0) /\
  bufs st' =
    (if ind =? 0 then bufs st
     else alter (fun a => fst (release nM 0 a)) ind (bufs st)) /\
  trace st' =
    trace st
      ++ (EFreeBlock <$> live (ini_data st) needed nS)
      ++ (if ind =? 0 then []
          else EBread ind
               :: (EFreeBlock <$> live (default [] (bufs st !! ind)) 0 nM)
               ++ [EFreeBlock ind; EBforget ind])
      ++ [EMarkInodeDirty].
Proof.
  intros (Hlen & HD & HB & Hsz & Hint) Hsmall needed ind nS nM st'.
  pose proof (blocks_needed_ceil (i_size st) HB Hsz) as Hceil.
  assert (0 <= needed) by (unfold needed; nia).
  subst st'. unfold truncate_pointers.
  fold (blocks_needed (i_size st)). fold needed.
  destruct (needed <? WUFS_INODE_BPTRS) eqn:E; [|apply Z.ltb_ge in E; lia].
  rewrite to_int_small by lia.
  set (stA := release_slots needed st).
  assert (Hind : rd (ini_data stA) (WUFS_INODE_BPTRS - 1) = ind).
  { unfold stA. rewrite release_slots_ini, release_rd.
    case_decide; [lia | done]. }
  rewrite Hind.
  assert (HA1 : ini_data stA = fst (release nS needed (ini_data st)))
    by (unfold stA; by rewrite release_slots_ini).
  assert (HA2 : bufs stA = bufs st)
    by (unfold stA; by rewrite release_slots_bufs).
  assert (HA3 : trace stA = trace st
                  ++ (EFreeBlock <$> live (ini_data st) needed nS))
    by (unfold stA; by rewrite release_slots_trace).
  clearbody stA.
  destruct (ind =? 0) eqn:Ez; cbn [negb].
  - cbn. rewrite HA1, HA2, HA3. by repeat rewrite <- app_assoc.
  - unfold release_entries. cbn. rewrite HA1, HA2, HA3.
    rewrite release_freed. fold nM.
    split; [done | split; [done |]].
    repeat rewrite <- app_assoc. cbn. by repeat rewrite <- app_assoc.
Qed.

Lemma release_entries_ini (lba i : Z) (st : state) :
  ini_data (release_entries lba i st) = ini_data st.
Proof. done. Qed.

Lemma truncate_large (st : state) :
  truncate_ready st ->
  WUFS_INODE_BPTRS - 1 < blocks_needed (i_size st) ->
  let keep := blocks_needed (i_size st) - (WUFS_INODE_BPTRS - 1) in
  let ind := rd (ini_data st) (WUFS_INODE_BPTRS - 1) in
  let nM := Z.to_nat (WUFS_BLOCKSIZE ÷ 2 - keep) in
  let st' := truncate_pointers st in
  ini_data st' = ini_data st /\
  bufs st' = alter (fun a => fst (release nM keep a)) ind (bufs st) /\
  trace st' =
    trace st ++ [EBread ind]
      ++ (EFreeBlock <$> live (default [] (bufs st !! ind)) keep nM)
      ++ [EMarkBufferDirty ind; EBrelse ind; EMarkInodeDirty].
Proof.
  intros (Hlen & HD & HB & Hsz & Hint) Hlarge keep ind nM st'.
  subst st'. unfold truncate_pointers.
  fold (blocks_needed (i_size st)).
  destruct (blocks_needed (i_size st) <? WUFS_INODE_BPTRS) eqn:E;
    [apply Z.ltb_lt in E; lia|].
  fold keep. rewrite to_int_small by (unfold keep; lia).
  unfold release_entries. cbn. rewrite release_freed. fold ind nM.
  split; [done | split; [done |]].
  repeat rewrite <- app_assoc. cbn. by repeat rewrite <- app_assoc.
Qed.

(** The fields the loops of [wufs_truncate] never write, and the ones
    they always write. *)
Lemma truncate_pointers_fields (st : state) :
  i_size (truncate_pointers st) = i_size st /\
  pool (truncate_pointers st) = pool st /\
  bh (truncate_pointers st) = bh st /\
  inode_touched (truncate_pointers st).
Proof.
  unfold truncate_pointers, release_slots, release_entries, inode_touched.
  split_ifs; repeat match goal with |- context [release ?n ?i ?a] =>
                      destruct (release n i a) end; by cbn.
Qed.

Lemma rd_nil (i : Z) : rd [] i = 0.
Proof. unfold rd. by destruct (i <? 0). Qed.

Lemma entry_released (st st' : state) (lba k j : Z) (n : nat) :
  bufs st' = alter (fun a => fst (release n k a)) lba (bufs st) ->
  entry st' lba j =
  if decide (k <= j < k + Z.of_nat n) then 0 else entry st lba j.
Proof.
  intros Hb. unfold entry. rewrite Hb, lookup_alter_eq.
  destruct (bufs st !! lba) as [a|]; cbn.
  - apply release_rd.
  - rewrite rd_nil. by case_decide.
Qed.

Lemma other_block_kept (st st' : state) (f : list Z -> list Z) (lba lba' : Z) :
  bufs st' = alter f lba (bufs st) -> lba' <> lba ->
  bufs st' !! lba' = bufs st !! lba'.
Proof. intros Hb Hne. rewrite Hb. by apply lookup_alter_ne. Qed.

Lemma elem_of_live (a : list Z) (i : Z) (n : nat) (v : Z) :
  v ∈ live a i n <->
  v <> 0 /\ exists j, i <= j < i + Z.of_nat n /\ rd a j = v.
Proof.
  unfold live. rewrite list_elem_of_filter, list_elem_of_fmap.
  split.
  - intros (Hv & j & -> & Hj). apply elem_of_seqZ in Hj. eauto.
  - intros (Hv & j & Hj & <-). split; [done|]. exists j.
    split; [done|]. by apply elem_of_seqZ.
Qed.

Lemma extends_inj (st st' : state) (new new' : list event) :
  extends st st' new -> extends st st' new' -> new = new'.
Proof.
  unfold extends. intros H1 H2. rewrite H1 in H2. by apply app_inv_head in H2.
Qed.

(** ** The allocator *)

Lemma wufs_new_block_eq (st : state) :
  wufs_new_block st =
  (hd 0 (pool st),
   emit (ENewBlock (hd 0 (pool st))) (set_pool (tl (pool st)) st)).
Proof. destruct st as [a s m c d b p h t]. by destruct p. Qed.

(** ** One pass through each retry loop *)

(** Induction on a schedule, two items at a time. *)
Lemma schedule_ind (P : list (option Z) -> Prop) :
  P [] -> (forall r, P [r]) ->
  (forall r1 r2 races, P races -> P (r1 :: r2 :: races)) ->
  forall races, P races.
Proof.
  intros Hnil Hone Hstep.
  assert (H : forall races, P races /\ forall r, P (r :: races)).
  { induction races as [|r races [IH1 IH2]]; [by split|].
    split; [apply IH2|]. intros r'. by apply Hstep. }
  intros races. apply H.
Qed.

(** A slot that is not 0 is mapped at once, whatever the schedule. *)
Lemma retrieve_direct_nonzero (races : list (option Z)) (ptr : Z)
    (create : bool) (st : state) :
  rd (ini_data st) ptr <> 0 ->
  retrieve_direct races ptr create st = direct_mapped ptr st.
Proof.
  intros H. apply Z.eqb_neq in H. destruct races; cbn; by rewrite H.
Qed.

(** One pass of [retrieve_direct], from the test to the jump. *)
Lemma retrieve_direct_pass (races : list (option Z)) (ptr : Z)
    (create : bool) (st : state) :
  let n := hd 0 (pool st) in
  let st1 := emit (ENewBlock n) (set_pool (tl (pool st)) st) in
  let st2 := competitor_slot (hd None races) ptr st1 in
  let st3 := wufs_free_block n st2 in
  retrieve_direct races ptr create st =
  if rd (ini_data st) ptr =? 0 then
    if negb create then (- EIO, st)
    else if n =? 0 then (- ENOSPC, st1)
    else if negb (rd (ini_data st2) ptr =? 0) then
      match races with
      | _ :: r :: races' =>
          retrieve_direct races' ptr create (competitor_slot r ptr st3)
      | _ => direct_mapped ptr st3
      end
    else direct_mapped ptr (set_buffer_new (touch_inode (store_slot ptr n st2)))
  else direct_mapped ptr st.
Proof.
  cbn zeta. destruct races as [|r1 [|r2 races]]; cbn [retrieve_direct];
    by rewrite wufs_new_block_eq.
Qed.

Lemma indirect_start_nonzero (races : list (option Z)) (ptr : Z)
    (create : bool) (data_LBA : Z) (st : state) :
  rd (ini_data st) ptr <> 0 ->
  indirect_start races ptr create data_LBA st = inr (races, st).
Proof.
  intros H. apply Z.eqb_neq in H. destruct races; cbn; by rewrite H.
Qed.

(** One pass of the first half of [retrieve_indirect]. *)
Lemma indirect_start_pass (races : list (option Z)) (ptr : Z)
    (create : bool) (data_LBA : Z) (st : state) :
  let n := hd 0 (pool st) in
  let st1 := emit (EMapBh (BhBlock n) n)
               (emit (ESetBufferNew (BhBlock n))
                  (emit (EGetblk n)
                     (emit (ENewBlock n) (set_pool (tl (pool st)) st)))) in
  let st2 := competitor_slot (hd None races) ptr st1 in
  let st3 := wufs_free_block data_LBA
               (wufs_free_block n (emit (EBforget n) st2)) in
  indirect_start races ptr create data_LBA st =
  if rd (ini_data st) ptr =? 0 then
    if negb create then inl (- EIO, st)
    else if n =? 0
         then inl (- ENOSPC, emit (ENewBlock n) (set_pool (tl (pool st)) st))
    else if negb (rd (ini_data st2) ptr =? 0) then
      match races with
      | _ :: r :: races' =>
          indirect_start races' ptr create data_LBA (competitor_slot r ptr st3)
      | _ => inr ([], st3)
      end
    else inr (tl races,
              touch_inode
                (emit (EBrelse n)
                   (emit (EMarkBufferDirty n) (store_slot ptr n st2))))
  else inr (races, st).
Proof.
  cbn zeta. destruct races as [|r1 [|r2 races]]; cbn [indirect_start];
    by rewrite wufs_new_block_eq.
Qed.

Lemma indirect_start_indirection_nonzero (races : list (option Z))
    (indir block : Z) (st : state) :
  entry st indir block <> 0 ->
  indirect_start_indirection races indir block st
  = indirect_mapped (entry st indir block) st.
Proof.
  intros H. apply Z.eqb_neq in H. destruct races; cbn; by rewrite H.
Qed.

(** One pass of the second half of [retrieve_indirect]. *)
Lemma indirect_start_indirection_pass (races : list (option Z))
    (indir block : Z) (st : state) :
  let n := hd 0 (pool st) in
  let st1 := emit (ENewBlock n) (set_pool (tl (pool st)) st) in
  let st2 := competitor_entry (hd None races) indir block st1 in
  let st3 := wufs_free_block n st2 in
  indirect_start_indirection races indir block st =
  if entry st indir block =? 0 then
    if n =? 0 then (- ENOSPC, st1)
    else if negb (entry st2 indir block =? 0) then
      match races with
      | _ :: r :: races' =>
          indirect_start_indirection races' indir block
            (competitor_entry r indir block st3)
      | _ => indirect_mapped (entry st3 indir block) st3
      end
    else indirect_mapped n
           (emit (EBrelse indir)
              (emit (EMarkBufferDirty indir) (store_entry indir block n st2)))
  else indirect_mapped (entry st indir block) st.
Proof.
  cbn zeta.
  destruct races as [|r1 [|r2 races]]; cbn [indirect_start_indirection];
    by rewrite wufs_new_block_eq.
Qed.
(** ** Runs of the retry loops *)

Lemma quiet_lost_candidate (n : Z) :
  n <> 0 -> quiet [ENewBlock n; EFreeBlock n].
Proof. intros Hn. unfold quiet. repeat split; intros; mem. Qed.

Lemma quiet_lost_indirect (n junk : Z) :
  n <> 0 ->
  quiet [ENewBlock n; EGetblk n; ESetBufferNew (BhBlock n);
         EMapBh (BhBlock n) n; EBforget n; EFreeBlock n; EFreeBlock junk].
Proof. intros Hn. unfold quiet. repeat split; intros; mem. Qed.

Lemma inode_untouched_trans (st st1 st' : state) :
  inode_untouched st st1 -> inode_untouched st1 st' -> inode_untouched st st'.
Proof. unfold inode_untouched. intuition congruence. Qed.

(** The events of lost races in front of a run do not change what the
    inode owes to it. *)
Lemma inode_rule_prefix (st st1 st' : state) (pre new : list event) :
  quiet pre -> inode_untouched st st1 ->
  inode_rule st1 st' new -> inode_rule st st' (pre ++ new).
Proof.
  intros (Qs & Qe & Qd & Qn & Qx) Hsame [Hcommit Hnone]. split.
  - intros (i & v & [Hc|Hc]%elem_of_app); [by apply Qs in Hc|].
    destruct Hcommit as [Ht (pre' & post & -> & Hd & Hn)]; [eauto|].
    split; [done|]. exists (pre ++ pre'), post.
    split; [by rewrite app_assoc|]. rewrite !elem_of_app. tauto.
  - intros Hn. destruct Hnone as (Hu & Hd & He).
    { intros i v Hc. apply (Hn i v). apply elem_of_app. by right. }
    split; [by eapply inode_untouched_trans|]. split.
    + rewrite elem_of_app. tauto.
    + intros lba i v [Hc|Hc]%elem_of_app; [by apply Qe in Hc|].
      apply elem_of_app. right. eauto.
Qed.

Lemma extends_trans (st st1 st2 : state) (new1 new2 : list event) :
  extends st st1 new1 -> extends st1 st2 new2 -> extends st st2 (new1 ++ new2).
Proof.
  unfold extends. intros H1 H2. by rewrite H2, H1, app_assoc.
Qed.

(** The events of lost races in front of a run of [retrieve_direct]. *)
Lemma direct_summary_prefix (ptr rc : Z) (st st1 st' : state)
    (pre new : list event) :
  quiet pre -> bufs st1 = bufs st -> bh st1 = bh st ->
  inode_untouched st st1 ->
  direct_summary ptr st1 rc st' new ->
  direct_summary ptr st rc st' (pre ++ new).
Proof.
  intros Hq Hbufs Hbh Hsame (Hb & Hx & He & Hf & Hrule).
  pose proof Hq as (Qs & Qe & Qd & Qn & Qx).
  split; [congruence|]. split; [|split; [|split]].
  - intros [Hin|Hin]%elem_of_app; [done | auto].
  - intros lba i v [Hin|Hin]%elem_of_app; [by apply Qe in Hin|].
    by apply He in Hin.
  - intros Hold. rewrite Hf by congruence. split.
    + intros [v Hv]. exists v. apply elem_of_app. by right.
    + intros [v [Hv|Hv]%elem_of_app]; [by apply Qs in Hv | eauto].
  - by apply inode_rule_prefix with st1.
Qed.

Lemma retrieve_direct_run (races : list (option Z)) (ptr : Z) (create : bool)
    (st : state) :
  exists new,
    extends st (snd (retrieve_direct races ptr create st)) new /\
    direct_summary ptr st (fst (retrieve_direct races ptr create st))
                   (snd (retrieve_direct races ptr create st)) new.
Proof.
  revert st.
  induction races as [|r|r1 r2 races IH] using schedule_ind; intros st;
    rewrite retrieve_direct_pass; cbn beta iota zeta delta [hd];
    split_ifs.
  all: try (summary_leaf; fail).
  match goal with
  | |- context [retrieve_direct races ptr create ?s] =>
      destruct (IH s) as (new' & Hext & Hsum)
  end.
  tests_to_Z.
  exists ([ENewBlock (hd 0 (pool st)); EFreeBlock (hd 0 (pool st))] ++ new').
  split.
  - eapply extends_trans; [|exact Hext]. trace_eq.
  - eapply direct_summary_prefix; [|..|exact Hsum]; try done.
    by apply quiet_lost_candidate.
Qed.

(** The events of lost races in front of a run of the first half of
    [retrieve_indirect]. *)
Lemma start_summary_prefix (ptr : Z) (rc : option Z) (st st1 st' : state)
    (pre new : list event) :
  quiet pre -> bufs st1 = bufs st -> bh st1 = bh st ->
  inode_untouched st st1 ->
  start_summary ptr st1 rc st' new ->
  start_summary ptr st rc st' (pre ++ new).
Proof.
  intros (Qs & Qe & Qd & Qn & Qx) Hbufs Hbh Hsame
         (Hb & Hh & Hn & He & Hrc & Hrule).
  split; [congruence|]. split; [congruence|]. split; [|split; [|split]].
  - rewrite elem_of_app. tauto.
  - intros lba i v [Hin|Hin]%elem_of_app; [by apply Qe in Hin|].
    by apply He in Hin.
  - destruct rc as [rc|].
    + destruct Hrc as (Hz & Hx & Hv). split; [done|]. split; [|done].
      intros [Hin|Hin]%elem_of_app; [done | auto].
    + rewrite elem_of_app. tauto.
  - destruct Hrule as [(Hc & Ht & Hd)|(Hc & Hu & Hd)]; [left | right].
    + destruct Hc as (i & v & Hc). split; [|split; [done|]].
      * exists i, v. apply elem_of_app. by right.
      * apply elem_of_app. by right.
    + split; [|split].
      * intros i v [Hin|Hin]%elem_of_app; [by apply Qs in Hin|].
        by apply Hc in Hin.
      * by eapply inode_untouched_trans.
      * rewrite elem_of_app. tauto.
Qed.

Lemma indirect_start_run (races : list (option Z)) (ptr : Z) (create : bool)
    (junk : Z) (st : state) :
  exists new,
    extends st (start_state (indirect_start races ptr create junk st)) new /\
    start_summary ptr st
      (start_rc (indirect_start races ptr create junk st))
      (start_state (indirect_start races ptr create junk st)) new.
Proof.
  revert st.
  induction races as [|r|r1 r2 races IH] using schedule_ind; intros st;
    rewrite indirect_start_pass; cbn beta iota zeta delta [hd];
    split_ifs.
  all: try (summary_leaf; fail).
  match goal with
  | |- context [indirect_start races ptr create junk ?s] =>
      destruct (IH s) as (new' & Hext & Hsum)
  end.
  tests_to_Z. set (n := hd 0 (pool st)) in *.
  exists ([ENewBlock n; EGetblk n; ESetBufferNew (BhBlock n);
           EMapBh (BhBlock n) n; EBforget n; EFreeBlock n; EFreeBlock junk]
          ++ new').
  split.
  - eapply extends_trans; [|exact Hext]. trace_eq.
  - eapply start_summary_prefix; [|..|exact Hsum]; try done.
    by apply quiet_lost_indirect.
Qed.

(** The events of lost races in front of a run of the second half of
    [retrieve_indirect]. *)
Lemma indirection_summary_prefix (indir block rc : Z) (st st1 st' : state)
    (pre new : list event) :
  quiet pre -> ini_data st1 = ini_data st -> inode_untouched st st1 ->
  indirection_summary indir block st1 rc st' new ->
  indirection_summary indir block st rc st' (pre ++ new).
Proof.
  intros (Qs & Qe & Qd & Qn & Qx) Hini Hsame
         (Hi & Hu & Hs & Hd & Hx & He & Hf).
  split; [congruence|]. split; [by eapply inode_untouched_trans|].
  split; [|split; [|split; [|split]]].
  - intros i v [Hin|Hin]%elem_of_app; [by apply Qs in Hin|].
    by apply Hs in Hin.
  - rewrite elem_of_app. tauto.
  - intros [Hin|Hin]%elem_of_app; [done | auto].
  - intros lba i v [Hin|Hin]%elem_of_app; [by apply Qe in Hin|].
    apply elem_of_app. right. eauto.
  - done.
Qed.

Lemma indirect_start_indirection_run (races : list (option Z))
    (indir block : Z) (st : state) :
  exists new,
    extends st (snd (indirect_start_indirection races indir block st)) new /\
    indirection_summary indir block st
      (fst (indirect_start_indirection races indir block st))
      (snd (indirect_start_indirection races indir block st)) new.
Proof.
  revert st.
  induction races as [|r|r1 r2 races IH] using schedule_ind; intros st;
    rewrite indirect_start_indirection_pass; cbn beta iota zeta delta [hd];
    split_ifs.
  all: try (summary_leaf; fail).
  match goal with
  | |- context [indirect_start_indirection races indir block ?s] =>
      destruct (IH s) as (new' & Hext & Hsum)
  end.
  tests_to_Z.
  exists ([ENewBlock (hd 0 (pool st)); EFreeBlock (hd 0 (pool st))] ++ new').
  split.
  - eapply extends_trans; [|exact Hext]. trace_eq.
  - eapply indirection_summary_prefix; [|..|exact Hsum]; try done.
    by apply quiet_lost_candidate.
Qed.

(** A run of [retrieve_indirect]: its first half, the [sb_bread], its
    second half. *)
Lemma retrieve_indirect_run (races : list (option Z)) (ptr : Z)
    (create : bool) (junk block : Z) (st : state) :
  let rc := fst (retrieve_indirect races ptr create junk block st) in
  let st' := snd (retrieve_indirect races ptr create junk block st) in
  exists new, extends st st' new /\
    inode_rule st st' new /\
    (ENewBlock 0 ∈ new ->
       rc = - ENOSPC /\
       (rd (ini_data st') ptr = 0 \/
        entry st' (rd (ini_data st') ptr) block = 0)) /\
    (rc = 0 -> b_new (bh st') = true).
Proof.
  cbn zeta. unfold retrieve_indirect.
  destruct (indirect_start_run races ptr create junk st)
    as (newA & HextA & HbA & HhA & HnA & HeA & HrcA & HruleA).
  destruct (indirect_start races ptr create junk st)
    as [[rc st1]|[races1 st1]]; cbn [start_rc start_state] in *.
  - (* early return *)
    exists newA. cbn [fst snd]. destruct HrcA as (Hz & Hx & Hv).
    split; [done|]. split; [|split].
    + destruct HruleA as [(Hc & Ht & Hd)|(Hc & Hu & Hd)]; split.
      * intros _. split; [done|]. exists newA, [].
        split; [by rewrite app_nil_r | done].
      * intros Hn. destruct Hc as (i & v & Hc). by apply Hn in Hc.
      * intros (i & v & Hin). by apply Hc in Hin.
      * intros _. split; [done|]. split; [done|].
        intros lba i v Hin. by apply HeA in Hin.
    + intros Hin. auto.
    + intros ->. by destruct Hv.
  - (* the second half runs *)
    set (indir := rd (ini_data st1) ptr).
    set (st2 := emit (EBread indir) st1).
    destruct (indirect_start_indirection_run races1 indir block st2)
      as (newB & HextB & HiB & HuB & HsB & HdB & HxB & HeB & HfB).
    set (rc := fst (indirect_start_indirection races1 indir block st2)) in *.
    set (st' := snd (indirect_start_indirection races1 indir block st2)) in *.
    exists (newA ++ EBread indir :: newB).
    split.
    { unfold extends in *. rewrite HextB. cbn. rewrite HextA.
      by rewrite <- !app_assoc. }
    split; [|split].
    + split.
      * intros (i & v & Hin).
        apply elem_of_app in Hin as [Hin|Hin];
          [|apply elem_of_cons in Hin as [Hin|Hin];
            [done | by apply HsB in Hin]].
        destruct HruleA as [(Hc & Ht & Hd)|(Hc & Hu & Hd)];
          [|by apply Hc in Hin].
        split.
        -- destruct Ht as (T1 & T2 & T3), HuB as (U1 & U2 & U3).
           unfold inode_touched. cbn in U1, U2, U3.
           repeat split; congruence.
        -- by exists newA, (EBread indir :: newB).
      * intros Hn.
        destruct HruleA as [(Hc & Ht & Hd)|(Hc & Hu & Hd)].
        { destruct Hc as (i & v & Hc). exfalso. apply (Hn i v).
          apply elem_of_app. by left. }
        split; [|split].
        -- eapply inode_untouched_trans; [exact Hu|].
           destruct HuB as (U1 & U2 & U3). by repeat split.
        -- rewrite elem_of_app, elem_of_cons. intuition congruence.
        -- intros lba i v Hin.
           apply elem_of_app in Hin as [Hin|Hin]; [by apply HeA in Hin|].
           apply elem_of_cons in Hin as [Hin|Hin]; [done|].
           apply elem_of_app. right. apply elem_of_cons. right. eauto.
    + intros Hin.
      apply elem_of_app in Hin as [Hin|Hin]; [done|].
      apply elem_of_cons in Hin as [Hin|Hin]; [done|].
      destruct (HxB Hin) as [Hrc Hentry]. split; [done|]. right.
      by rewrite HiB.
    + done.
Qed.

(** A run that commits a block returns 0: no error path of the retry loops
    comes after a commit. *)
Lemma retrieve_direct_commit_success (races : list (option Z)) (ptr : Z)
    (create : bool) (st : state) :
  exists new,
    extends st (snd (retrieve_direct races ptr create st)) new /\
    ((exists i v, ECommitSlot i v ∈ new) ->
     fst (retrieve_direct races ptr create st) = 0).
Proof.
  revert st.
  induction races as [|r|r1 r2 races IH] using schedule_ind; intros st;
    rewrite retrieve_direct_pass; cbn beta iota zeta delta [hd];
    split_ifs.
  all: try (eexists; split; [trace_eq|]; cbn;
            first [ done | by intros (i & v & Hin); mem ]; fail).
  match goal with
  | |- context [retrieve_direct races ptr create ?s] =>
      destruct (IH s) as (new' & Hext & Hrc)
  end.
  exists ([ENewBlock (hd 0 (pool st)); EFreeBlock (hd 0 (pool st))] ++ new').
  split; [eapply extends_trans; [|exact Hext]; trace_eq|].
  intros (i & v & Hin). apply Hrc. exists i, v. cbn in Hin. mem.
Qed.

Lemma indirection_commit_success (races : list (option Z)) (indir block : Z)
    (st : state) :
  exists new,
    extends st (snd (indirect_start_indirection races indir block st)) new /\
    ((exists lba i v, ECommitEntry lba i v ∈ new) ->
     fst (indirect_start_indirection races indir block st) = 0).
Proof.
  revert st.
  induction races as [|r|r1 r2 races IH] using schedule_ind; intros st;
    rewrite indirect_start_indirection_pass; cbn beta iota zeta delta [hd];
    split_ifs.
  all: try (eexists; split; [trace_eq|]; cbn;
            first [ done | by intros (lba & i & v & Hin); mem ]; fail).
  match goal with
  | |- context [indirect_start_indirection races indir block ?s] =>
      destruct (IH s) as (new' & Hext & Hrc)
  end.
  exists ([ENewBlock (hd 0 (pool st)); EFreeBlock (hd 0 (pool st))] ++ new').
  split; [eapply extends_trans; [|exact Hext]; trace_eq|].
  intros (lba & i & v & Hin). apply Hrc. exists lba, i, v. cbn in Hin. mem.
Qed.

(** [retrieve_indirect] commits to an entry only on a run that returns 0. *)
Lemma retrieve_indirect_commit_success (races : list (option Z)) (ptr : Z)
    (create : bool) (junk block : Z) (st : state) (new : list event) :
  extends st (snd (retrieve_indirect races ptr create junk block st)) new ->
  (exists lba i v, ECommitEntry lba i v ∈ new) ->
  fst (retrieve_indirect races ptr create junk block st) = 0.
Proof.
  unfold retrieve_indirect.
  destruct (indirect_start_run races ptr create junk st)
    as (newA & HextA & _ & _ & _ & HeA & _).
  destruct (indirect_start races ptr create junk st)
    as [[rc st1]|[races1 st1]]; cbn [start_rc start_state fst snd] in *.
  - intros Hnew (lba & i & v & Hin).
    rewrite (extends_inj _ _ _ _ Hnew HextA) in Hin. by apply HeA in Hin.
  - set (indir := rd (ini_data st1) ptr).
    destruct (indirection_commit_success races1 indir block
                (emit (EBread indir) st1)) as (newB & HextB & HrcB).
    intros Hnew (lba & i & v & Hin). apply HrcB.
    assert (Hall : extends st
              (snd (indirect_start_indirection races1 indir block
                      (emit (EBread indir) st1)))
              (newA ++ EBread indir :: newB)).
    { unfold extends in *. rewrite HextB. cbn. rewrite HextA.
      by rewrite <- !app_assoc. }
    rewrite (extends_inj _ _ _ _ Hnew Hall) in Hin.
    exists lba, i, v.
    apply elem_of_app in Hin as [Hin|Hin]; [by apply HeA in Hin|].
    by apply elem_of_cons in Hin as [Hin|Hin].
Qed.

(** ** Exhaustion of the allocator *)

(** C7, as the code has it: when [wufs_new_block] reports exhaustion during
    [wufs_get_blk(..., create = 1)], the call returns [-ENOSPC] and the
    logical block is still a hole: its direct slot, the indirect slot or
    its entry of the indirection block holds 0.  The call has committed no
    block to an entry and, in the direct range, none to a slot, and then
    the inode's timestamps and dirty flag are as before.  In the indirect
    range it may have committed the indirection block to the indirect slot
    before the allocator gave out: that block stays, and the inode is
    stamped and marked dirty.  On a hole, with an allocator that has
    nothing to give when the call starts, the inode's pointers and all
    blocks are exactly as before. *)
Theorem exhaustion_leaves_hole (races : list (option Z)) (junk b : Z)
    (st : state) :
  let rc := fst (wufs_get_blk races junk b true st) in
  let st' := snd (wufs_get_blk races junk b true st) in
  (forall new, extends st st' new -> ENewBlock 0 ∈ new ->
     rc = - ENOSPC /\ hole st' b = true /\
     (forall lba i v, ECommitEntry lba i v ∉ new) /\
     (b < WUFS_INODE_BPTRS - 1 -> forall i v, ECommitSlot i v ∉ new) /\
     ((exists i v, ECommitSlot i v ∈ new) -> inode_touched st') /\
     ((forall i v, ECommitSlot i v ∉ new) -> inode_untouched st st')) /\
  (0 <= b < sbi_max_fblks -> hole st b = true -> hd 0 (pool st) = 0 ->
     rc = - ENOSPC /\ hole st' b = true /\
     ini_data st' = ini_data st /\ bufs st' = bufs st).
Proof.
  cbn zeta. split.
  - intros new. unfold wufs_get_blk, hole.
    destruct ((b <? 0) || (b >=? sbi_max_fblks)) eqn:Erange.
    { intros Hnew Hin. read_new. mem. }
    destruct (b >=? WUFS_INODE_BPTRS - 1) eqn:Eind.
    + assert ((b <? WUFS_INODE_BPTRS - 1) = false) as -> by lia.
      intros Hnew Hin.
      pose proof (retrieve_indirect_commit_success races
                    (WUFS_INODE_BPTRS - 1) true junk
                    (b - (WUFS_INODE_BPTRS - 1)) st new Hnew) as Hcommit.
      destruct (retrieve_indirect_run races (WUFS_INODE_BPTRS - 1) true junk
                  (b - (WUFS_INODE_BPTRS - 1)) st)
        as (new' & Hnew' & Hrule & Hx & _).
      rewrite (extends_inj _ _ _ _ Hnew Hnew') in *.
      destruct (Hx Hin) as [Hrc Hhole].
      split; [done|]. split.
      { apply orb_true_iff.
        destruct Hhole as [H|H]; [left | right]; by apply Z.eqb_eq. }
      split.
      { intros lba i v Hc. rewrite Hcommit in Hrc by eauto.
        by vm_compute in Hrc. }
      split; [intros; lia|].
      destruct Hrule as [Hyes Hno].
      split; [intros Hc; by destruct (Hyes Hc) | intros Hc; by destruct (Hno Hc)].
    + assert ((b <? WUFS_INODE_BPTRS - 1) = true) as -> by lia.
      intros Hnew Hin.
      destruct (retrieve_direct_commit_success races b true st)
        as (new0 & Hnew0 & Hcommit).
      destruct (retrieve_direct_run races b true st)
        as (new' & Hnew' & _ & Hx & He & _ & Hrule).
      rewrite (extends_inj _ _ _ _ Hnew0 Hnew') in *.
      rewrite (extends_inj _ _ _ _ Hnew Hnew') in *.
      destruct (Hx Hin) as [Hrc Hhole].
      assert (Hnone : forall i v, ECommitSlot i v ∉ new').
      { intros i v Hc. rewrite Hcommit in Hrc by eauto.
        by vm_compute in Hrc. }
      split; [done|]. split; [by apply Z.eqb_eq|].
      split; [exact He|]. split; [intros _; exact Hnone|].
      destruct Hrule as [Hyes Hno].
      split; [intros Hc; by destruct (Hyes Hc) | intros Hc; by destruct (Hno Hc)].
  - intros Hrange Hhole Hpool. unfold wufs_get_blk, hole in *.
    assert (((b <? 0) || (b >=? sbi_max_fblks)) = false) as -> by lia.
    destruct (b >=? WUFS_INODE_BPTRS - 1) eqn:Eind.
    + assert ((b <? WUFS_INODE_BPTRS - 1) = false) as Hlt by lia.
      rewrite Hlt in *. apply orb_true_iff in Hhole.
      unfold retrieve_indirect. rewrite indirect_start_pass. cbn zeta.
      rewrite Hpool. cbn [Z.eqb negb].
      destruct (rd (ini_data st) (WUFS_INODE_BPTRS - 1) =? 0) eqn:Eslot.
      * cbn. by rewrite Eslot.
      * destruct Hhole as [H|H]; [done|].
        rewrite indirect_start_indirection_pass. cbn zeta.
        unfold entry in *. cbn. rewrite H, Hpool. cbn.
        by rewrite Eslot, H.
    + assert ((b <? WUFS_INODE_BPTRS - 1) = true) as Hlt by lia.
      rewrite Hlt in *.
      rewrite retrieve_direct_pass. cbn zeta. rewrite Hhole, Hpool. cbn.
      by rewrite Hhole.
Qed.

(** ** Commits and the inode *)

(** C9, as the code has it: a call of [wufs_get_blk] that commits a new
    block to a slot of the inode (a direct slot, or the indirect slot)
    stamps the inode with the current time and marks it dirty, and does so
    before the caller's [bh] is flagged as new; a call that commits to no
    slot of the inode leaves the inode's timestamps and dirty flag as they
    were, also when it commits a new block to an entry of the indirection
    block: what it marks dirty then is the buffer of that block. *)
Theorem commit_marks_inode_dirty (races : list (option Z)) (junk b : Z)
    (create : bool) (st : state) (new : list event) :
  let st' := snd (wufs_get_blk races junk b create st) in
  extends st st' new ->
  ((exists i v, ECommitSlot i v ∈ new) ->
     inode_touched st' /\ dirty_before_new new) /\
  ((forall i v, ECommitSlot i v ∉ new) ->
     inode_untouched st st' /\ (EMarkInodeDirty ∉ new) /\
     forall lba i v, ECommitEntry lba i v ∈ new -> EMarkBufferDirty lba ∈ new).
Proof.
  cbn zeta. unfold wufs_get_blk.
  destruct ((b <? 0) || (b >=? sbi_max_fblks)).
  { intros Hnew. read_new. split.
    - intros (i & v & Hin). mem.
    - intros _. split; [done|]. split; [mem|]. intros lba i v Hin. mem. }
  destruct (b >=? WUFS_INODE_BPTRS - 1); intros Hnew.
  - destruct (retrieve_indirect_run races (WUFS_INODE_BPTRS - 1) create junk
                (b - (WUFS_INODE_BPTRS - 1)) st)
      as (new' & Hnew' & Hrule & _).
    by rewrite (extends_inj _ _ _ _ Hnew Hnew').
  - destruct (retrieve_direct_run races b create st)
      as (new' & Hnew' & _ & _ & _ & _ & Hrule).
    by rewrite (extends_inj _ _ _ _ Hnew Hnew').
Qed.

(** ** The range check and the dispatch *)

Lemma wufs_get_blk_dispatch (races : list (option Z)) (junk b : Z)
    (create : bool) (st : state) :
  0 <= b < sbi_max_fblks ->
  wufs_get_blk races junk b create st =
  if b <? WUFS_INODE_BPTRS - 1 then retrieve_direct races b create st
  else retrieve_indirect races (WUFS_INODE_BPTRS - 1) create junk
                         (b - (WUFS_INODE_BPTRS - 1)) st.
Proof.
  intros Hb. unfold wufs_get_blk.
  assert (((b <? 0) || (b >=? sbi_max_fblks)) = false) as -> by lia.
  destruct (b >=? WUFS_INODE_BPTRS - 1) eqn:E.
  - by assert ((b <? WUFS_INODE_BPTRS - 1) = false) as -> by lia.
  - by assert ((b <? WUFS_INODE_BPTRS - 1) = true) as -> by lia.
Qed.

(** C8, as the code has it: outside [0, sbi_max_fblks) [wufs_get_blk]
    returns [-EIO] and leaves everything as it was; and [-EIO], with
    everything left as it was, is also what it returns, with [create = 0],
    for a block in range whose slot of the inode (its direct slot, or the
    indirect slot) holds 0. *)
Theorem out_of_range_and_hole_are_eio (races : list (option Z)) (junk b : Z)
    (create : bool) (st : state) :
  (b < 0 \/ sbi_max_fblks <= b ->
     wufs_get_blk races junk b create st = (- EIO, st)) /\
  (0 <= b < sbi_max_fblks -> rd (ini_data st) (slot_of b) = 0 ->
     wufs_get_blk races junk b false st = (- EIO, st)).
Proof.
  split.
  - intros Hb. unfold wufs_get_blk.
    by assert (((b <? 0) || (b >=? sbi_max_fblks)) = true) as -> by lia.
  - intros Hb Hslot. rewrite wufs_get_blk_dispatch by done.
    unfold slot_of in Hslot. apply Z.eqb_eq in Hslot.
    destruct (b <? WUFS_INODE_BPTRS - 1).
    + rewrite retrieve_direct_pass. cbn zeta. by rewrite Hslot.
    + unfold retrieve_indirect. rewrite indirect_start_pass. cbn zeta.
      by rewrite Hslot.
Qed.

(** ** Where the indirect mapper departs from the direct one *)

(** The first half of [retrieve_indirect] writes to no block: the block it
    commits to the indirect slot has the content it had. *)
Lemma indirect_start_keeps_bufs (races : list (option Z)) (ptr : Z)
    (create : bool) (data_LBA : Z) (st : state) :
  bufs (start_state (indirect_start races ptr create data_LBA st)) = bufs st.
Proof.
  by destruct (indirect_start_run races ptr create data_LBA st)
    as (new & _ & Hb & _).
Qed.

(** The second half of [retrieve_indirect] does not depend on [create]: a
    hole in an indirection block that exists is filled also when
    [create = 0]. *)
Lemma retrieve_indirect_ignores_create (races : list (option Z)) (ptr : Z)
    (create : bool) (junk block : Z) (st : state) :
  rd (ini_data st) ptr <> 0 ->
  retrieve_indirect races ptr create junk block st
  = retrieve_indirect races ptr true junk block st.
Proof.
  intros H. unfold retrieve_indirect.
  by rewrite !indirect_start_nonzero by done.
Qed.

(** Every successful [retrieve_indirect] flags [bh] as new. *)
Lemma retrieve_indirect_flags_new (races : list (option Z)) (ptr : Z)
    (create : bool) (junk block : Z) (st : state) :
  fst (retrieve_indirect races ptr create junk block st) = 0 ->
  b_new (bh (snd (retrieve_indirect races ptr create junk block st))) = true.
Proof.
  by destruct (retrieve_indirect_run races ptr create junk block st)
    as (new & _ & _ & _ & Hf).
Qed.

(** [retrieve_direct] flags [bh] as new exactly when it commits. *)
Lemma retrieve_direct_flags_commit (races : list (option Z)) (ptr : Z)
    (create : bool) (st : state) (new : list event) :
  b_new (bh st) = false ->
  extends st (snd (retrieve_direct races ptr create st)) new ->
  b_new (bh (snd (retrieve_direct races ptr create st))) = true <->
  exists v, ECommitSlot ptr v ∈ new.
Proof.
  intros Hold Hnew.
  destruct (retrieve_direct_run races ptr create st)
    as (new' & Hnew' & _ & _ & _ & Hf & _).
  rewrite (extends_inj _ _ _ _ Hnew Hnew'). auto.
Qed.

(** A lost race for the indirect slot frees the candidate and then the
    unassigned [data_LBA]; a lost race in [retrieve_direct] frees the
    candidate only. *)
Lemma indirect_start_lost_race (ptr v n junk : Z) (p : list Z) (st : state) :
  rd (ini_data st) ptr = 0 -> pool st = n :: p -> n <> 0 ->
  rd (wr (ini_data st) ptr v) ptr <> 0 ->
  exists st', indirect_start [Some v] ptr true junk st = inr ([], st') /\
    extends st st'
      [ENewBlock n; EGetblk n; ESetBufferNew (BhBlock n);
       EMapBh (BhBlock n) n; EBforget n; EFreeBlock n; EFreeBlock junk].
Proof.
  intros Hslot Hpool Hn Hv. rewrite indirect_start_pass. cbn zeta.
  apply Z.eqb_eq in Hslot. apply Z.eqb_neq in Hn, Hv.
  rewrite Hslot, Hpool. cbn. rewrite Hn, Hv. cbn.
  eexists. split; [done | trace_eq].
Qed.

Lemma retrieve_direct_lost_race (ptr v n : Z) (p : list Z) (st : state) :
  rd (ini_data st) ptr = 0 -> pool st = n :: p -> n <> 0 ->
  rd (wr (ini_data st) ptr v) ptr <> 0 ->
  extends st (snd (retrieve_direct [Some v] ptr true st))
    [ENewBlock n; EFreeBlock n;
     EMapBh BhResult (rd (wr (ini_data st) ptr v) ptr)].
Proof.
  intros Hslot Hpool Hn Hv. rewrite retrieve_direct_pass. cbn zeta.
  apply Z.eqb_eq in Hslot. apply Z.eqb_neq in Hn, Hv.
  rewrite Hslot, Hpool. cbn. rewrite Hn, Hv. cbn. trace_eq.
Qed.

(** ** Allocator accounting *)

Lemma count_app (f : event -> bool) (l1 l2 : list event) :
  count f (l1 ++ l2) = (count f l1 + count f l2)%nat.
Proof. induction l1 as [|e l1 IH]; cbn; [done | rewrite IH; lia]. Qed.

(** In [retrieve_direct] every block obtained from the allocator is either
    committed or handed back, whatever the number of lost races. *)
Lemma retrieve_direct_accounting (races : list (option Z)) (ptr : Z)
    (create : bool) (st : state) :
  exists new,
    extends st (snd (retrieve_direct races ptr create st)) new /\
    count is_alloc new = (count is_free new + count is_commit new)%nat.
Proof.
  revert st.
  induction races as [|r|r1 r2 races IH] using schedule_ind; intros st;
    rewrite retrieve_direct_pass; cbn beta iota zeta delta [hd];
    split_ifs.
  all: try (eexists; split; [trace_eq|]; cbn;
            repeat match goal with H : (_ =? _) = _ |- _ => rewrite H end;
            done).
  match goal with
  | |- context [retrieve_direct races ptr create ?s] =>
      destruct (IH s) as (new' & Hext & Hcount)
  end.
  exists ([ENewBlock (hd 0 (pool st)); EFreeBlock (hd 0 (pool st))] ++ new').
  split.
  - eapply extends_trans; [|exact Hext]. trace_eq.
  - rewrite !count_app, Hcount. cbn. rewrite Heqb1. cbn. lia.
Qed.

(** The same in the second half of [retrieve_indirect]. *)
Lemma indirect_start_indirection_accounting (races : list (option Z))
    (indir block : Z) (st : state) :
  exists new,
    extends st (snd (indirect_start_indirection races indir block st)) new /\
    count is_alloc new = (count is_free new + count is_commit new)%nat.
Proof.
  revert st.
  induction races as [|r|r1 r2 races IH] using schedule_ind; intros st;
    rewrite indirect_start_indirection_pass; cbn beta iota zeta delta [hd];
    split_ifs.
  all: try (eexists; split; [trace_eq|]; cbn;
            repeat match goal with H : (_ =? _) = _ |- _ => rewrite H end;
            done).
  match goal with
  | |- context [indirect_start_indirection races indir block ?s] =>
      destruct (IH s) as (new' & Hext & Hcount)
  end.
  exists ([ENewBlock (hd 0 (pool st)); EFreeBlock (hd 0 (pool st))] ++ new').
  split.
  - eapply extends_trans; [|exact Hext]. trace_eq.
  - rewrite !count_app, Hcount. cbn. rewrite Heqb0. cbn. lia.
Qed.

(** In the first half of [retrieve_indirect] every block obtained from the
    allocator and not committed is handed back twice over. *)
Lemma indirect_start_accounting (races : list (option Z)) (ptr : Z)
    (create : bool) (junk : Z) (st : state) :
  exists new,
    extends st (start_state (indirect_start races ptr create junk st)) new /\
    (count is_free new + 2 * count is_commit new
     = 2 * count is_alloc new)%nat.
Proof.
  revert st.
  induction races as [|r|r1 r2 races IH] using schedule_ind; intros st;
    rewrite indirect_start_pass; cbn beta iota zeta delta [hd];
    split_ifs.
  all: try (eexists; split; [trace_eq|]; cbn;
            repeat match goal with H : (_ =? _) = _ |- _ => rewrite H end;
            done).
  match goal with
  | |- context [indirect_start races ptr create junk ?s] =>
      destruct (IH s) as (new' & Hext & Hcount)
  end.
  set (n := hd 0 (pool st)) in *.
  exists ([ENewBlock n; EGetblk n; ESetBufferNew (BhBlock n);
           EMapBh (BhBlock n) n; EBforget n; EFreeBlock n; EFreeBlock junk]
          ++ new').
  split.
  - eapply extends_trans; [|exact Hext]. trace_eq.
  - rewrite !count_app. cbn. rewrite Heqb1. cbn. lia.
Qed.

(** ** What a call of [wufs_get_blk] leaves alone *)

Lemma slots_kept_trans (ptr : Z) (st st1 st2 : state) :
  slots_kept ptr st st1 -> slots_kept ptr st1 st2 -> slots_kept ptr st st2.
Proof.
  intros (S1 & L1 & R1) (S2 & L2 & R2). split; [congruence|].
  split; [congruence|]. intros j Hj. rewrite R2, R1; done.
Qed.

Lemma slots_kept_write (ptr v : Z) (st st' : state) :
  i_size st' = i_size st -> ini_data st' = wr (ini_data st) ptr v ->
  slots_kept ptr st st'.
Proof.
  intros Hs Hi. split; [done|]. rewrite Hi. split; [apply length_wr|].
  intros j Hj. by apply rd_wr_other.
Qed.

Lemma slots_kept_same (ptr : Z) (st st' : state) :
  i_size st' = i_size st -> ini_data st' = ini_data st ->
  slots_kept ptr st st'.
Proof. intros Hs Hi. unfold slots_kept. by rewrite Hs, Hi. Qed.

Lemma competitor_slot_kept (r : option Z) (ptr : Z) (st : state) :
  slots_kept ptr st (competitor_slot r ptr st).
Proof.
  destruct r as [v|]; [by apply slots_kept_write with v|].
  by apply slots_kept_same.
Qed.

(** One conjunct of the frame of a run that ends at once. *)
Ltac frame_atom :=
  intros;
  repeat (rewrite ?length_wr, ?rd_wr_other by done;
          try match goal with
              | |- context [match ?r with Some _ => _ | None => _ end] =>
                  destruct r
              end);
  first [ done | by left | by right; left | by right; right
        | match goal with H : _ = _ |- _ => by vm_compute in H end
        | match goal with H : _ <> _ |- _ => by destruct H end ].

Ltac frame_leaf :=
  unfold bh_rule, slots_kept, blocks_kept, entry; cbn;
  repeat match goal with |- _ /\ _ => split end; frame_atom.

Lemma retrieve_direct_frame (races : list (option Z)) (ptr : Z)
    (create : bool) (st : state) :
  bh_rule st (fst (retrieve_direct races ptr create st))
             (snd (retrieve_direct races ptr create st)) /\
  slots_kept ptr st (snd (retrieve_direct races ptr create st)) /\
  (fst (retrieve_direct races ptr create st) = 0 ->
   b_blocknr (bh (snd (retrieve_direct races ptr create st)))
   = rd (ini_data (snd (retrieve_direct races ptr create st))) ptr).
Proof.
  revert st.
  induction races as [|r|r1 r2 races IH] using schedule_ind; intros st;
    rewrite retrieve_direct_pass; cbn beta iota zeta delta [hd];
    split_ifs.
  all: try (frame_leaf; fail).
  match goal with
  | |- context [retrieve_direct races ptr create ?s] =>
      destruct (IH s) as ((Hrc & Herr & Hok) & Hk & Hm);
      assert (Hs : bh s = bh st /\ slots_kept ptr st s) by frame_leaf
  end.
  destruct Hs as [Hbh Hs].
  split; [split; [done | split; [|done]] | split; [|done]].
  - intros H. by rewrite Herr.
  - by eapply slots_kept_trans.
Qed.

Lemma indirect_start_frame (races : list (option Z)) (ptr : Z)
    (create : bool) (junk : Z) (st : state) :
  slots_kept ptr st (start_state (indirect_start races ptr create junk st)).
Proof.
  revert st.
  induction races as [|r|r1 r2 races IH] using schedule_ind; intros st;
    rewrite indirect_start_pass; cbn beta iota zeta delta [hd];
    split_ifs.
  all: try (frame_leaf; fail).
  match goal with
  | |- context [indirect_start races ptr create junk ?s] =>
      pose proof (IH s) as Hk;
      assert (Hs : slots_kept ptr st s) by frame_leaf
  end.
  by eapply slots_kept_trans.
Qed.

Lemma blocks_kept_trans (indir block : Z) (st st1 st2 : state) :
  blocks_kept indir block st st1 -> blocks_kept indir block st1 st2 ->
  blocks_kept indir block st st2.
Proof.
  intros [B1 E1] [B2 E2]. split.
  - intros lba Hne. by rewrite B2, B1.
  - intros j Hne. by rewrite E2, E1.
Qed.

(** One conjunct of the frame of a run on an entry that ends at once. *)
Ltac blocks_atom :=
  intros;
  repeat (rewrite ?lookup_alter_ne by done; rewrite ?lookup_alter_eq;
          try match goal with
              | |- context [match ?r with Some _ => _ | None => _ end] =>
                  destruct r
              end; cbn);
  repeat match goal with
         | |- context [bufs ?s !! ?k] => destruct (bufs s !! k); cbn
         end;
  rewrite ?rd_wr_other by done;
  first [ done | by left | by right; left | by right; right
        | match goal with H : _ = _ |- _ => by vm_compute in H end
        | match goal with H : _ <> _ |- _ => by destruct H end ].

Ltac blocks_leaf :=
  unfold bh_rule, blocks_kept, entry; cbn;
  repeat match goal with |- _ /\ _ => split end; blocks_atom.

Lemma indirect_start_indirection_frame (races : list (option Z))
    (indir block : Z) (st : state) :
  bh_rule st (fst (indirect_start_indirection races indir block st))
             (snd (indirect_start_indirection races indir block st)) /\
  blocks_kept indir block st
    (snd (indirect_start_indirection races indir block st)) /\
  i_size (snd (indirect_start_indirection races indir block st)) = i_size st.
Proof.
  revert st.
  induction races as [|r|r1 r2 races IH] using schedule_ind; intros st;
    rewrite indirect_start_indirection_pass; cbn beta iota zeta delta [hd];
    split_ifs.
  all: try (blocks_leaf; fail).
  match goal with
  | |- context [indirect_start_indirection races indir block ?s] =>
      destruct (IH s) as ((Hrc & Herr & Hok) & Hk & Hsz);
      assert (Hs : bh s = bh st /\ blocks_kept indir block st s /\
                   i_size s = i_size st) by blocks_leaf
  end.
  destruct Hs as (Hbh & Hs & Hsize).
  split; [split; [done | split; [|done]] | split].
  - intros H. by rewrite Herr.
  - by eapply blocks_kept_trans.
  - congruence.
Qed.

(** X5: [wufs_get_blk] returns 0, [-EIO] or [-ENOSPC] and nothing else;
    when it returns an error the caller's [bh] is exactly as it was, and
    when it returns 0 the [bh] is mapped.  This holds for every schedule of
    competitors. *)
Theorem get_blk_result_and_bh (races : list (option Z)) (junk b : Z)
    (create : bool) (st : state) :
  let rc := fst (wufs_get_blk races junk b create st) in
  let st' := snd (wufs_get_blk races junk b create st) in
  (rc = 0 \/ rc = - EIO \/ rc = - ENOSPC) /\
  (rc <> 0 -> bh st' = bh st) /\
  (rc = 0 -> b_mapped (bh st') = true).
Proof.
  cbn zeta. unfold wufs_get_blk.
  destruct ((b <? 0) || (b >=? sbi_max_fblks)).
  { cbn. split; [by right; left|]. split; [done|]. by intros H. }
  destruct (b >=? WUFS_INODE_BPTRS - 1).
  - unfold retrieve_indirect.
    destruct (indirect_start_run races (WUFS_INODE_BPTRS - 1) create junk st)
      as (newA & _ & _ & HhA & _ & _ & HrcA & _).
    destruct (indirect_start races (WUFS_INODE_BPTRS - 1) create junk st)
      as [[rc st1]|[races1 st1]]; cbn [start_rc start_state] in *.
    + destruct HrcA as (_ & _ & Hv). cbn [fst snd].
      split; [tauto|]. split; [done|].
      intros ->. by destruct Hv.
    + match goal with
      | |- context [indirect_start_indirection ?r ?i ?k ?s] =>
          destruct (indirect_start_indirection_frame r i k s)
            as ((Hrc & Herr & Hok) & _)
      end.
      split; [done|]. split; [|done]. intros H. by rewrite Herr.
  - apply retrieve_direct_frame.
Qed.

(** X6: [wufs_get_blk] on logical block [b] leaves the size of the inode
    and every slot of its pointer array alone, but for the slot it looks at
    for [b]: the direct slot of [b], or the indirect slot. *)
Theorem get_blk_touches_one_slot (races : list (option Z)) (junk b : Z)
    (create : bool) (st : state) :
  let st' := snd (wufs_get_blk races junk b create st) in
  i_size st' = i_size st /\
  length (ini_data st') = length (ini_data st) /\
  forall j, j <> slot_of b -> rd (ini_data st') j = rd (ini_data st) j.
Proof.
  cbn zeta. unfold wufs_get_blk, slot_of.
  destruct ((b <? 0) || (b >=? sbi_max_fblks)); [done|].
  destruct (b >=? WUFS_INODE_BPTRS - 1) eqn:E.
  - assert ((b <? WUFS_INODE_BPTRS - 1) = false) as -> by lia.
    unfold retrieve_indirect.
    pose proof (indirect_start_frame races (WUFS_INODE_BPTRS - 1) create
                  junk st) as HkA.
    destruct (indirect_start races (WUFS_INODE_BPTRS - 1) create junk st)
      as [[rc st1]|[races1 st1]]; cbn [start_state] in HkA; [done|].
    match goal with
    | |- context [indirect_start_indirection ?r ?i ?k ?s] =>
        destruct (indirect_start_indirection_frame r i k s)
          as (_ & _ & Hsz);
        destruct (indirect_start_indirection_run r i k s)
          as (newB & _ & Hini & _)
    end.
    destruct HkA as (S1 & L1 & R1). rewrite Hsz, Hini. cbn. done.
  - assert ((b <? WUFS_INODE_BPTRS - 1) = true) as -> by lia.
    apply retrieve_direct_frame.
Qed.


(** ** Create, then look up *)

Lemma pool_ok_head (st : state) :
  pool_ok st -> hd 0 (pool st) <> 0 ->
  to_block_t (hd 0 (pool st)) = hd 0 (pool st) /\
  pool_ok (set_pool (tl (pool st)) st).
Proof.
  unfold pool_ok. destruct (pool st) as [|n p]; cbn; [done|].
  intros [Hn Hp]%Forall_cons _. split; [|done].
  unfold to_block_t. apply Z.mod_small. lia.
Qed.

Lemma length_competitor_slot (r : option Z) (ptr : Z) (st : state) :
  length (ini_data (competitor_slot r ptr st)) = length (ini_data st).
Proof. destruct r; cbn; by rewrite ?length_wr. Qed.

(** With an allocator that hands out proper block numbers, a successful
    [retrieve_direct] on a slot of the inode leaves that slot non-zero. *)
Lemma retrieve_direct_maps_nonzero (races : list (option Z)) (ptr : Z)
    (create : bool) (st : state) :
  pool_ok st -> 0 <= ptr < Z.of_nat (length (ini_data st)) ->
  fst (retrieve_direct races ptr create st) = 0 ->
  rd (ini_data (snd (retrieve_direct races ptr create st))) ptr <> 0.
Proof.
  revert st.
  induction races as [|r|r1 r2 races IH] using schedule_ind;
    intros st Hpool Hptr;
    rewrite retrieve_direct_pass; cbn beta iota zeta delta [hd];
    split_ifs; tests_to_Z; cbn [fst snd direct_mapped];
    try (intros H; cbv [EIO ENOSPC] in H; lia); intros Hrc.
  all: try (cbn in *; done).
  all: try (destruct (pool_ok_head st Hpool) as [Hn _]; [done|];
            cbn; rewrite Hn, rd_wr_same; [done|];
            match goal with
            | |- context [match ?r with Some _ => _ | None => _ end] =>
                destruct r
            | _ => idtac
            end; by rewrite ?length_wr).
  apply IH; [| |exact Hrc].
  - by destruct (pool_ok_head st Hpool) as [_ Hp].
  - cbn. destruct r2, r1; cbn; by rewrite ?length_wr.
Qed.

(** X8: in the direct range, with an allocator that hands out proper block
    numbers, a successful [wufs_get_blk(..., create = 1)] followed by a
    second [wufs_get_blk] on the same block, with or without [create],
    succeeds again and maps [bh] to the same block; the second call takes
    nothing from the allocator and changes neither the pointers nor the
    blocks. *)
Theorem direct_create_then_lookup (races races' : list (option Z))
    (junk junk' b : Z) (create' : bool) (st : state) :
  0 <= b < sbi_max_fblks -> b < WUFS_INODE_BPTRS - 1 ->
  b < Z.of_nat (length (ini_data st)) -> pool_ok st ->
  fst (wufs_get_blk races junk b true st) = 0 ->
  let st1 := snd (wufs_get_blk races junk b true st) in
  let r2 := wufs_get_blk races' junk' b create' st1 in
  fst r2 = 0 /\
  b_blocknr (bh (snd r2)) = b_blocknr (bh st1) /\
  b_blocknr (bh st1) = mapping st1 b /\ mapping st1 b <> 0 /\
  pool (snd r2) = pool st1 /\ ini_data (snd r2) = ini_data st1 /\
  bufs (snd r2) = bufs st1.
Proof.
  intros Hb Hdirect Hlen Hpool. cbn zeta. unfold mapping.
  assert ((b <? WUFS_INODE_BPTRS - 1) = true) as -> by lia.
  rewrite !wufs_get_blk_dispatch by done.
  assert ((b <? WUFS_INODE_BPTRS - 1) = true) as -> by lia.
  intros Hrc.
  pose proof (retrieve_direct_maps_nonzero races b true st Hpool
                ltac:(lia) Hrc) as Hnz.
  destruct (retrieve_direct_frame races b true st) as (_ & _ & Hmap).
  specialize (Hmap Hrc).
  set (st1 := snd (retrieve_direct races b true st)) in *.
  rewrite retrieve_direct_nonzero by done. cbn.
  by rewrite Hmap.
Qed.

Lemma entry_in_block_same (st st' : state) (indir block : Z) :
  bufs st' = bufs st -> entry_in_block st indir block ->
  entry_in_block st' indir block.
Proof. unfold entry_in_block. by intros ->. Qed.

Lemma entry_after_store (st st' : state) (indir block v : Z) :
  bufs st' = alter (fun a => wr a block v) indir (bufs st) ->
  entry_in_block st indir block ->
  entry st' indir block = v /\ entry_in_block st' indir block.
Proof.
  intros Hb (a & Ha & Hblock). unfold entry, entry_in_block.
  rewrite Hb, lookup_alter_eq, Ha. cbn. split; [by apply rd_wr_same|].
  eexists. split; [done|]. by rewrite length_wr.
Qed.

Lemma entry_in_block_competitor (r : option Z) (st : state)
    (indir block : Z) :
  entry_in_block st indir block ->
  entry_in_block (competitor_entry r indir block st) indir block.
Proof.
  intros H. destruct r as [v|]; [|done].
  by eapply (entry_after_store st _ indir block v).
Qed.

(** With an allocator that hands out proper block numbers, a successful
    run of the second half of [retrieve_indirect] on an entry of a cached
    block leaves that entry non-zero, and [bh] mapped to it. *)
Lemma indirection_maps_nonzero (races : list (option Z)) (indir block : Z)
    (st : state) :
  pool_ok st -> entry_in_block st indir block ->
  fst (indirect_start_indirection races indir block st) = 0 ->
  entry (snd (indirect_start_indirection races indir block st)) indir block
    <> 0 /\
  b_blocknr (bh (snd (indirect_start_indirection races indir block st)))
  = entry (snd (indirect_start_indirection races indir block st)) indir block.
Proof.
  revert st.
  induction races as [|r|r1 r2 races IH] using schedule_ind;
    intros st Hpool Hin;
    rewrite indirect_start_indirection_pass; cbn beta iota zeta delta [hd];
    split_ifs; tests_to_Z; cbn [fst snd indirect_mapped];
    try (intros H; cbv [EIO ENOSPC] in H; lia); intros Hrc.
  all: try (split; [exact Heqb | reflexivity]).
  all: try (split; [exact Heqb1 | reflexivity]).
  all: try (destruct (pool_ok_head st Hpool) as [Hn _]; [done|];
            match goal with
            | |- context [store_entry ?i ?k ?n (competitor_entry ?r _ _ ?s)] =>
                destruct (entry_after_store (competitor_entry r i k s)
                            (store_entry i k n (competitor_entry r i k s))
                            i k (to_block_t n) eq_refl)
                  as [He _];
                [by apply entry_in_block_competitor, (entry_in_block_same st)|]
            end;
            unfold entry in *; cbn in *; rewrite He, Hn; done).
  apply IH; [| |exact Hrc].
  - by destruct (pool_ok_head st Hpool) as [_ Hp].
  - apply entry_in_block_competitor.
    eapply entry_in_block_same; [|apply (entry_in_block_competitor r1)];
      [done|].
    by apply (entry_in_block_same st).
Qed.

(** X9: in the indirect range, with the indirection block in place and an
    allocator that hands out proper block numbers, a successful
    [wufs_get_blk] followed by a second [wufs_get_blk] on the same block
    succeeds again and maps [bh] to the same block; the second call takes
    nothing from the allocator and changes neither the pointers nor the
    blocks. *)
Theorem indirect_create_then_lookup (races races' : list (option Z))
    (junk junk' b : Z) (create create' : bool) (st : state) :
  0 <= b < sbi_max_fblks -> WUFS_INODE_BPTRS - 1 <= b ->
  rd (ini_data st) (WUFS_INODE_BPTRS - 1) <> 0 ->
  entry_in_block st (rd (ini_data st) (WUFS_INODE_BPTRS - 1))
                 (b - (WUFS_INODE_BPTRS - 1)) ->
  pool_ok st ->
  fst (wufs_get_blk races junk b create st) = 0 ->
  let st1 := snd (wufs_get_blk races junk b create st) in
  let r2 := wufs_get_blk races' junk' b create' st1 in
  fst r2 = 0 /\
  b_blocknr (bh (snd r2)) = b_blocknr (bh st1) /\
  b_blocknr (bh st1) = mapping st1 b /\ mapping st1 b <> 0 /\
  pool (snd r2) = pool st1 /\ ini_data (snd r2) = ini_data st1 /\
  bufs (snd r2) = bufs st1.
Proof.
  intros Hb Hind Hslot Hin Hpool. cbn zeta. unfold mapping.
  assert ((b <? WUFS_INODE_BPTRS - 1) = false) as -> by lia.
  rewrite !wufs_get_blk_dispatch by done.
  assert ((b <? WUFS_INODE_BPTRS - 1) = false) as -> by lia.
  set (ind := rd (ini_data st) (WUFS_INODE_BPTRS - 1)) in *.
  set (off := b - (WUFS_INODE_BPTRS - 1)) in *.
  set (st0 := emit (EBread ind) st).
  assert (H1 : retrieve_indirect races (WUFS_INODE_BPTRS - 1) create junk off st
               = indirect_start_indirection races ind off st0).
  { unfold retrieve_indirect. by rewrite indirect_start_nonzero. }
  rewrite H1. intros Hrc.
  destruct (indirection_maps_nonzero races ind off st0 Hpool Hin Hrc)
    as [Hnz Hmap].
  destruct (indirect_start_indirection_run races ind off st0)
    as (newB & _ & Hini & _).
  set (st1 := snd (indirect_start_indirection races ind off st0)) in *.
  assert (Hind1 : rd (ini_data st1) (WUFS_INODE_BPTRS - 1) = ind)
    by (by rewrite Hini).
  assert (H2 : retrieve_indirect races' (WUFS_INODE_BPTRS - 1) create' junk'
                 off st1
               = indirect_mapped (entry st1 ind off) (emit (EBread ind) st1)).
  { unfold retrieve_indirect.
    rewrite indirect_start_nonzero by congruence. rewrite Hind1.
    by rewrite indirect_start_indirection_nonzero. }
  rewrite H2, Hind1. cbn. by rewrite Hmap.
Qed.

(** ** Net allocation of a retry loop *)

(** The accounting of a run that ends at once, on an explicit list. *)
Ltac account_leaf :=
  eexists; split; [trace_eq|]; cbn;
  repeat match goal with H : (_ =? _) = _ |- _ => rewrite H end; cbn;
  repeat match goal with |- _ /\ _ => split end;
  first [ done | lia | by intros; mem ].

(** X10: whatever the number of races it loses, [retrieve_direct] commits
    at most one block, commits only when it returns 0, hands back to the
    allocator only blocks it obtained in this call, and ends with every
    block it obtained either committed or handed back. *)
Theorem direct_net_allocation (races : list (option Z)) (ptr : Z)
    (create : bool) (st : state) :
  exists new,
    extends st (snd (retrieve_direct races ptr create st)) new /\
    count is_alloc new = (count is_free new + count is_commit new)%nat /\
    (count is_commit new <= 1)%nat /\
    (count is_commit new = 1%nat ->
     fst (retrieve_direct races ptr create st) = 0) /\
    forall v, EFreeBlock v ∈ new -> ENewBlock v ∈ new.
Proof.
  revert st.
  induction races as [|r|r1 r2 races IH] using schedule_ind; intros st;
    rewrite retrieve_direct_pass; cbn beta iota zeta delta [hd];
    split_ifs.
  all: try (account_leaf; fail).
  match goal with
  | |- context [retrieve_direct races ptr create ?s] =>
      destruct (IH s) as (new' & Hext & Hcount & Hone & Hrc & Hfree)
  end.
  exists ([ENewBlock (hd 0 (pool st)); EFreeBlock (hd 0 (pool st))] ++ new').
  split; [eapply extends_trans; [|exact Hext]; trace_eq|].
  rewrite !count_app. cbn. rewrite Heqb1. cbn.
  split; [lia|]. split; [lia|]. split; [done|].
  intros v Hin. cbn in Hin.
  apply elem_of_cons in Hin as [Hin|Hin]; [discriminate|].
  apply elem_of_cons in Hin as [Hin|Hin].
  - injection Hin as ->. apply list_elem_of_here.
  - by apply list_elem_of_further, list_elem_of_further, Hfree.
Qed.

(** X11: the same for the second half of [retrieve_indirect], on an entry
    of the indirection block. *)
Theorem entry_net_allocation (races : list (option Z)) (indir block : Z)
    (st : state) :
  exists new,
    extends st (snd (indirect_start_indirection races indir block st)) new /\
    count is_alloc new = (count is_free new + count is_commit new)%nat /\
    (count is_commit new <= 1)%nat /\
    (count is_commit new = 1%nat ->
     fst (indirect_start_indirection races indir block st) = 0) /\
    forall v, EFreeBlock v ∈ new -> ENewBlock v ∈ new.
Proof.
  revert st.
  induction races as [|r|r1 r2 races IH] using schedule_ind; intros st;
    rewrite indirect_start_indirection_pass; cbn beta iota zeta delta [hd];
    split_ifs.
  all: try (account_leaf; fail).
  match goal with
  | |- context [indirect_start_indirection races indir block ?s] =>
      destruct (IH s) as (new' & Hext & Hcount & Hone & Hrc & Hfree)
  end.
  exists ([ENewBlock (hd 0 (pool st)); EFreeBlock (hd 0 (pool st))] ++ new').
  split; [eapply extends_trans; [|exact Hext]; trace_eq|].
  rewrite !count_app. cbn. rewrite Heqb0. cbn.
  split; [lia|]. split; [lia|]. split; [done|].
  intros v Hin. cbn in Hin.
  apply elem_of_cons in Hin as [Hin|Hin]; [discriminate|].
  apply elem_of_cons in Hin as [Hin|Hin].
  - injection Hin as ->. apply list_elem_of_here.
  - by apply list_elem_of_further, list_elem_of_further, Hfree.
Qed.

(** X12: in the first half of [retrieve_indirect] a candidate for the
    indirect slot that loses its race costs two calls of [wufs_free_block]:
    whatever the number of lost races, the blocks handed back are twice the
    blocks obtained and not committed; at most one block is committed; what
    is handed back is a block obtained in this call or the content of the
    unassigned local [data_LBA]; and that content is handed back as soon
    as one candidate is not committed. *)
Theorem indirect_slot_net_allocation (races : list (option Z)) (ptr : Z)
    (create : bool) (junk : Z) (st : state) :
  exists new,
    extends st (start_state (indirect_start races ptr create junk st)) new /\
    (count is_free new + 2 * count is_commit new
     = 2 * count is_alloc new)%nat /\
    (count is_commit new <= 1)%nat /\
    (forall v, EFreeBlock v ∈ new -> ENewBlock v ∈ new \/ v = junk) /\
    ((count is_commit new < count is_alloc new)%nat ->
     EFreeBlock junk ∈ new).
Proof.
  revert st.
  induction races as [|r|r1 r2 races IH] using schedule_ind; intros st;
    rewrite indirect_start_pass; cbn beta iota zeta delta [hd];
    split_ifs.
  all: try (eexists; split; [trace_eq|]; cbn;
            repeat match goal with H : (_ =? _) = _ |- _ => rewrite H end;
            cbn; repeat match goal with |- _ /\ _ => split end;
            first [ done | lia | by intros; lia | by intros; mem
                  | by intros v Hin; left; mem ]; fail).
  match goal with
  | |- context [indirect_start races ptr create junk ?s] =>
      destruct (IH s) as (new' & Hext & Hcount & Hone & Hfree & Hjunk)
  end.
  set (n := hd 0 (pool st)) in *.
  exists ([ENewBlock n; EGetblk n; ESetBufferNew (BhBlock n);
           EMapBh (BhBlock n) n; EBforget n; EFreeBlock n; EFreeBlock junk]
          ++ new').
  split; [eapply extends_trans; [|exact Hext]; trace_eq|].
  rewrite !count_app. cbn. rewrite Heqb1. cbn.
  split; [lia|]. split; [lia|]. split.
  - intros v Hin.
    repeat (apply elem_of_cons in Hin as [Hin|Hin];
            [first [discriminate
                   | injection Hin as ->; first [by right | left; mem]]|]).
    destruct (Hfree v Hin) as [H| ->]; [left | by right].
    by do 7 apply list_elem_of_further.
  - intros _. do 6 apply list_elem_of_further. apply list_elem_of_here.
Qed.

(** ** The callback of [block_truncate_page] *)

Lemma last_block_unaligned (size : Z) :
  0 < WUFS_BLOCKSIZE -> 0 <= size -> size mod WUFS_BLOCKSIZE <> 0 ->
  last_block size = blocks_needed size - 1.
Proof.
  intros HB Hs Hm. unfold last_block, blocks_needed.
  rewrite Z.quot_div_nonneg by lia.
  pose proof (Z.div_mod size WUFS_BLOCKSIZE ltac:(lia)).
  pose proof (Z.mod_pos_bound size WUFS_BLOCKSIZE HB).
  assert ((size + WUFS_BLOCKSIZE - 1) / WUFS_BLOCKSIZE
          = size / WUFS_BLOCKSIZE + 1); [|lia].
  symmetry.
  apply (Z.div_unique _ _ _ (size mod WUFS_BLOCKSIZE - 1)); lia.
Qed.

Lemma lookup_events_nil (ind k : Z) : lookup_events ind k [].
Proof. intros e He. by apply elem_of_nil in He. Qed.

Lemma lookup_only_events (ind k : Z) (cb : list event) :
  lookup_only ind cb -> lookup_events ind k cb.
Proof.
  intros H e He. destruct (H e He) as [->|[->|(v & ->)]]; eauto 10.
Qed.

(** The events of the second half of [retrieve_indirect]. *)
Lemma indirection_events (races : list (option Z)) (indir block : Z)
    (st : state) :
  exists new,
    extends st (snd (indirect_start_indirection races indir block st)) new /\
    lookup_events indir block new.
Proof.
  revert st.
  induction races as [|r|r1 r2 races IH] using schedule_ind; intros st;
    rewrite indirect_start_indirection_pass; cbn beta iota zeta delta [hd];
    split_ifs; tests_to_Z.
  all: try (eexists; split; [trace_eq|]; intros e He; cbn in He;
            repeat (apply elem_of_cons in He as [->|He];
                    [first [ by eauto 10
                           | do 6 right; left; eexists; split; [done|];
                             split; [done | find_event] ]|]);
            by apply elem_of_nil in He).
  match goal with
  | |- context [indirect_start_indirection races indir block ?s] =>
      destruct (IH s) as (new' & Hext & Hev)
  end.
  exists ([ENewBlock (hd 0 (pool st)); EFreeBlock (hd 0 (pool st))] ++ new').
  split; [eapply extends_trans; [|exact Hext]; trace_eq|].
  intros e He. cbn in He.
  apply elem_of_cons in He as [->|He]; [eauto 10|].
  apply elem_of_cons in He as [->|He].
  { do 6 right. left. eexists. split; [done|]. split; [done|].
    apply list_elem_of_here. }
  destruct (Hev e He) as [H|[H|[H|[H|[H|[H|[(v & -> & Hv & Hin)|H]]]]]]];
    eauto 10.
  do 6 right. left. exists v. split; [done|]. split; [done|].
  by do 2 apply list_elem_of_further.
Qed.

Lemma blocks_kept_same (indir block : Z) (st st' : state) :
  bufs st' = bufs st -> blocks_kept indir block st st'.
Proof. intros H. unfold blocks_kept, entry. rewrite H. by split. Qed.

(** A call of [wufs_get_blk] with [create = 0]: what it leaves alone, and
    its events. *)
Lemma lookup_run (races : list (option Z)) (junk b : Z) (st : state) :
  let st' := snd (wufs_get_blk races junk b false st) in
  let ind := rd (ini_data st) (WUFS_INODE_BPTRS - 1) in
  let k := b - (WUFS_INODE_BPTRS - 1) in
  i_size st' = i_size st /\ ini_data st' = ini_data st /\
  blocks_kept ind k st st' /\
  exists cb, extends st st' cb /\ lookup_events ind k cb /\
    (b < WUFS_INODE_BPTRS - 1 \/ ind = 0 ->
       bufs st' = bufs st /\ pool st' = pool st /\
       (cb = [] \/ exists v, cb = [EMapBh BhResult v])) /\
    (entry st ind k <> 0 ->
       bufs st' = bufs st /\ pool st' = pool st /\ lookup_only ind cb).
Proof.
  intros st' ind k. subst st'. unfold wufs_get_blk.
  assert (Hnone : forall s : state,
            i_size s = i_size st -> ini_data s = ini_data st ->
            bufs s = bufs st -> pool s = pool st ->
            (trace s = trace st \/ exists v, trace s = trace st ++ [EMapBh BhResult v]) ->
            i_size s = i_size st /\ ini_data s = ini_data st /\
            blocks_kept ind k st s /\
            exists cb, extends st s cb /\ lookup_events ind k cb /\
              (b < WUFS_INODE_BPTRS - 1 \/ ind = 0 ->
                 bufs s = bufs st /\ pool s = pool st /\
                 (cb = [] \/ exists v, cb = [EMapBh BhResult v])) /\
              (entry st ind k <> 0 ->
                 bufs s = bufs st /\ pool s = pool st /\ lookup_only ind cb)).
  { intros s Hs Hi Hb Hp Ht.
    split; [done|]. split; [done|]. split; [by apply blocks_kept_same|].
    destruct Ht as [Ht|(v & Ht)].
    - exists []. split; [unfold extends; by rewrite Ht, app_nil_r|].
      split; [apply lookup_events_nil|].
      split; [intros _; auto|].
      intros _. split; [done|]. split; [done|].
      intros e He. by apply elem_of_nil in He.
    - assert (Hev : lookup_only ind [EMapBh BhResult v]).
      { intros e He. apply list_elem_of_singleton in He as ->. eauto. }
      exists [EMapBh BhResult v]. split; [exact Ht|].
      split; [by apply lookup_only_events|].
      split; [intros _; eauto|]. by intros _. }
  destruct ((b <? 0) || (b >=? sbi_max_fblks)); [apply Hnone; auto|].
  destruct (b >=? WUFS_INODE_BPTRS - 1) eqn:Erange.
  - unfold retrieve_indirect. rewrite indirect_start_pass. cbn zeta.
    fold ind. destruct (ind =? 0) eqn:Eind; cbn [negb];
      [apply Hnone; auto|].
    apply Z.eqb_neq in Eind. cbn beta iota zeta. fold ind k.
    set (s := emit (EBread ind) st).
    destruct (indirect_start_indirection_frame races ind k s)
      as (_ & Hkept & Hsize).
    destruct (indirect_start_indirection_run races ind k s)
      as (new0 & Hnew0 & Hini & _).
    destruct (indirection_events races ind k s) as (new & Hnew & Hev).
    split; [exact Hsize|]. split; [exact Hini|]. split.
    { eapply blocks_kept_trans; [|exact Hkept]. by apply blocks_kept_same. }
    exists (EBread ind :: new). split.
    { unfold extends in *. rewrite Hnew. cbn. by rewrite <- app_assoc. }
    split.
    { intros e He. apply elem_of_cons in He as [->|He]; [by left|].
      destruct (Hev e He) as [H|[H|[H|[H|[H|[H|[(v & -> & Hv & Hin)|H]]]]]]];
        eauto 10.
      do 6 right. left. exists v. split; [done|]. split; [done|].
      by apply list_elem_of_further. }
    split; [intros [H|H]; [lia | done]|].
    intros Hentry.
    assert (Hs : entry s ind k <> 0) by done.
    revert Hnew. rewrite (indirect_start_indirection_nonzero _ _ _ _ Hs).
    cbn. intros Hnew. unfold extends in Hnew. cbn in Hnew.
    rewrite <- app_assoc in Hnew. apply app_inv_head in Hnew. cbn in Hnew.
    split; [done|]. split; [done|].
    intros e He. rewrite <- Hnew in He.
    repeat (apply elem_of_cons in He as [->|He]; [eauto|]).
    by apply elem_of_nil in He.
  - rewrite retrieve_direct_pass. cbn zeta.
    destruct (rd (ini_data st) b =? 0); cbn [negb]; apply Hnone; cbn; eauto.
Qed.

(** [block_truncate_page]: what it leaves alone, and the events [cb] of
    its callback. *)
Lemma block_truncate_page_run (page : option buffer_head)
    (races : list (option Z)) (junk : Z) (st : state) :
  let st0 := block_truncate_page page races junk st in
  let ind := rd (ini_data st) (WUFS_INODE_BPTRS - 1) in
  let k := last_block (i_size st) - (WUFS_INODE_BPTRS - 1) in
  i_size st0 = i_size st /\ ini_data st0 = ini_data st /\ bh st0 = bh st /\
  blocks_kept ind k st st0 /\
  exists cb, extends st st0 (EBlockTruncatePage :: cb) /\
    lookup_events ind k cb /\
    (i_size st mod WUFS_BLOCKSIZE = 0 \/
     last_block (i_size st) < WUFS_INODE_BPTRS - 1 \/ ind = 0 ->
       bufs st0 = bufs st /\ pool st0 = pool st /\
       (cb = [] \/ exists v, cb = [EMapBh BhResult v])) /\
    (entry st ind k <> 0 ->
       bufs st0 = bufs st /\ pool st0 = pool st /\ lookup_only ind cb).
Proof.
  intros st0 ind k. subst st0. unfold block_truncate_page.
  assert (Hnone :
    let s := emit EBlockTruncatePage st in
    i_size s = i_size st /\ ini_data s = ini_data st /\ bh s = bh st /\
    blocks_kept ind k st s /\
    exists cb, extends st s (EBlockTruncatePage :: cb) /\
      lookup_events ind k cb /\
      (i_size st mod WUFS_BLOCKSIZE = 0 \/
       last_block (i_size st) < WUFS_INODE_BPTRS - 1 \/ ind = 0 ->
         bufs s = bufs st /\ pool s = pool st /\
         (cb = [] \/ exists v, cb = [EMapBh BhResult v])) /\
      (entry st ind k <> 0 ->
         bufs s = bufs st /\ pool s = pool st /\ lookup_only ind cb)).
  { cbn zeta. split; [done|]. split; [done|]. split; [done|].
    split; [by apply blocks_kept_same|].
    exists []. split; [done|]. split; [apply lookup_events_nil|].
    split; [intros _; auto|]. intros _. split; [done|]. split; [done|].
    intros e He. by apply elem_of_nil in He. }
  cbn zeta in *. cbn [i_size emit].
  destruct (i_size st mod WUFS_BLOCKSIZE =? 0) eqn:Ealigned; [exact Hnone|].
  apply Z.eqb_neq in Ealigned.
  destruct page as [page_bh|]; [|exact Hnone].
  destruct (b_mapped page_bh); [exact Hnone|]. clear Hnone.
  set (s := set_bh page_bh (emit EBlockTruncatePage st)).
  fold (last_block (i_size st)).
  destruct (lookup_run races junk (last_block (i_size st)) s)
    as (Hsize & Hini & Hkept & cb & Hcb & Hev & Hquiet & Hmapped).
  change (rd (ini_data s) (WUFS_INODE_BPTRS - 1)) with ind in *.
  fold k in Hkept, Hev, Hmapped.
  change (bh (emit EBlockTruncatePage st)) with (bh st).
  destruct (wufs_get_blk races junk (last_block (i_size st)) false s)
    as [rc s']. cbn [snd] in *.
  split; [exact Hsize|]. split; [exact Hini|]. split; [done|].
  split.
  { destruct Hkept as [K1 K2]. split; [exact K1 | exact K2]. }
  exists cb. split.
  { unfold extends in *. cbn in *. rewrite Hcb. by rewrite <- app_assoc. }
  split; [exact Hev|]. split.
  - intros [H|H]; [done|]. by apply Hquiet.
  - exact Hmapped.
Qed.

Lemma block_truncate_page_ready (page : option buffer_head)
    (races : list (option Z)) (junk : Z) (st : state) :
  truncate_ready st -> truncate_ready (block_truncate_page page races junk st).
Proof.
  destruct (block_truncate_page_run page races junk st) as (Hs & Hi & _).
  unfold truncate_ready. by rewrite Hs, Hi.
Qed.

(** ** The loops of [wufs_truncate] *)

Lemma live_ext (a a' : list Z) (i : Z) (n : nat) :
  (forall j, i <= j < i + Z.of_nat n -> rd a j = rd a' j) ->
  live a i n = live a' i n.
Proof.
  intros H. unfold live. f_equal. apply Forall_fmap_ext_1, Forall_forall.
  intros j Hj. apply elem_of_seqZ in Hj. by apply H.
Qed.



Lemma wr_zero_id (a : list Z) (i : Z) : rd a i = 0 -> wr a i 0 = a.
Proof.
  unfold rd, wr. destruct (i <? 0); [done|].
  destruct (a !! Z.to_nat i) as [w|] eqn:E; cbn.
  - intros ->. by apply list_insert_id.
  - intros _. apply list_insert_ge. by apply lookup_ge_None.
Qed.

(** The loop changes nothing and frees nothing where every pointer it goes
    over is 0 already. *)
Lemma release_id (n : nat) (i : Z) (a : list Z) :
  (forall j, i <= j < i + Z.of_nat n -> rd a j = 0) ->
  release n i a = (a, []).
Proof.
  revert i a. induction n as [|n IH]; intros i a Hz; [done|].
  cbn [release]. rewrite (Hz i) by lia. cbn.
  rewrite wr_zero_id by (apply Hz; lia).
  rewrite IH; [done|]. intros j Hj. apply Hz. lia.
Qed.

Lemma alter_release_id (n : nat) (i lba : Z) (m : gmap Z (list Z)) :
  (forall j, i <= j < i + Z.of_nat n -> rd (default [] (m !! lba)) j = 0) ->
  alter (fun a => fst (release n i a)) lba m = m.
Proof.
  intros Hz. apply alter_id. intros a Ha. rewrite Ha in Hz. cbn in Hz.
  by rewrite release_id.
Qed.

(** The loops map nothing. *)
Lemma truncate_pointers_keeps_holes (st : state) (b : Z) :
  truncate_ready st ->
  hole st b = true -> hole (truncate_pointers st) b = true.
Proof.
  intros Hready.
  pose proof Hready as (Hlen & HD & HB & Hsz & Hint).
  unfold hole.
  set (ind := rd (ini_data st) (WUFS_INODE_BPTRS - 1)).
  destruct (decide (blocks_needed (i_size st) <= WUFS_INODE_BPTRS - 1))
    as [Hsmall|Hlarge].
  - destruct (truncate_small st Hready Hsmall) as (Hi & Hb & _).
    cbn zeta in Hi, Hb. fold ind in Hi, Hb.
    assert (Hslot : forall j, rd (ini_data st) j = 0 ->
              rd (ini_data (truncate_pointers st)) j = 0).
    { intros j Hj. rewrite Hi. destruct (ind =? 0).
      - rewrite release_rd. by case_decide.
      - rewrite rd_wr_zero. case_decide; [done|].
        rewrite release_rd. by case_decide. }
    destruct (b <? WUFS_INODE_BPTRS - 1).
    + intros H%Z.eqb_eq. apply Z.eqb_eq. auto.
    + intros _. apply orb_true_iff. left. apply Z.eqb_eq.
      rewrite Hi. destruct (ind =? 0) eqn:Ez.
      * rewrite release_rd. case_decide; [done|]. by apply Z.eqb_eq in Ez.
      * rewrite rd_wr_zero. by case_decide.
  - assert (Hlarge' : WUFS_INODE_BPTRS - 1 < blocks_needed (i_size st))
      by lia.
    destruct (truncate_large st Hready Hlarge') as (Hi & Hb & _).
    cbn zeta in Hi, Hb. fold ind in Hb.
    rewrite Hi. fold ind.
    destruct (b <? WUFS_INODE_BPTRS - 1); [done|].
    intros [H|H]%orb_true_iff; apply orb_true_iff; [by left | right].
    apply Z.eqb_eq in H. apply Z.eqb_eq.
    rewrite (entry_released st _ ind _ _ _ Hb). by case_decide.
Qed.

(** The loops find nothing to do where the pointers beyond the size are 0
    already. *)
Lemma truncate_pointers_idle (st : state) :
  truncate_ready st ->
  let needed := blocks_needed (i_size st) in
  let ind := rd (ini_data st) (WUFS_INODE_BPTRS - 1) in
  (needed <= WUFS_INODE_BPTRS - 1 ->
     forall j, needed <= j <= WUFS_INODE_BPTRS - 1 -> rd (ini_data st) j = 0) ->
  (WUFS_INODE_BPTRS - 1 < needed ->
     forall j, needed - (WUFS_INODE_BPTRS - 1) <= j < WUFS_BLOCKSIZE ÷ 2 ->
       entry st ind j = 0) ->
  ini_data (truncate_pointers st) = ini_data st /\
  bufs (truncate_pointers st) = bufs st /\
  exists new, extends st (truncate_pointers st) new /\
    forall v, EFreeBlock v ∉ new.
Proof.
  intros Hready needed ind Hzs Hzl.
  destruct (decide (needed <= WUFS_INODE_BPTRS - 1)) as [Hsmall|Hlarge].
  - specialize (Hzs Hsmall).
    destruct (truncate_small st Hready Hsmall) as (Hi & Hb & Ht).
    cbn zeta in Hi, Hb, Ht. fold needed in Hi, Hb, Ht.
    rewrite (Hzs (WUFS_INODE_BPTRS - 1)), Z.eqb_refl in Hi, Hb, Ht
      by (unfold needed in *; lia).
    assert (Hrel : release (Z.to_nat (WUFS_INODE_BPTRS - 1 - needed)) needed
                     (ini_data st) = (ini_data st, [])).
    { apply release_id. intros j Hj. apply Hzs. lia. }
    rewrite <- release_freed, Hrel in Ht. rewrite Hrel in Hi.
    cbn [fst snd fmap list_fmap app] in Hi, Ht.
    split; [done|]. split; [done|]. eexists. split; [exact Ht|].
    intros v Hin. cbn in Hin. mem.
  - assert (Hlarge' : WUFS_INODE_BPTRS - 1 < needed) by lia.
    specialize (Hzl Hlarge').
    destruct (truncate_large st Hready Hlarge') as (Hi & Hb & Ht).
    cbn zeta in Hi, Hb, Ht. fold needed ind in Hi, Hb, Ht.
    rewrite alter_release_id in Hb by (intros j Hj; apply Hzl; lia).
    rewrite <- release_freed, release_id in Ht
      by (intros j Hj; apply Hzl; lia).
    cbn [fst snd fmap list_fmap app] in Ht.
    split; [done|]. split; [done|]. eexists. split; [exact Ht|].
    intros v Hin. cbn in Hin. mem.
Qed.

(** The two cases of [wufs_truncate], callback included. *)
Lemma wufs_truncate_small (page : option buffer_head)
    (races : list (option Z)) (junk : Z) (st : state) :
  truncate_ready st ->
  blocks_needed (i_size st) <= WUFS_INODE_BPTRS - 1 ->
  let needed := blocks_needed (i_size st) in
  let ind := rd (ini_data st) (WUFS_INODE_BPTRS - 1) in
  let nS := Z.to_nat (WUFS_INODE_BPTRS - 1 - needed) in
  let nM := Z.to_nat (WUFS_BLOCKSIZE ÷ 2 - 0) in
  let st' := wufs_truncate page races junk st in
  ini_data st' =
    (if ind =? 0 then fst (release nS needed (ini_data st))
     else wr (fst (release nS needed (ini_data st))) (WUFS_INODE_BPTRS - 1) 0) /\
  bufs st' =
    (if ind =? 0 then bufs st
     else alter (fun a => fst (release nM 0 a)) ind (bufs st)) /\
  pool st' = pool st /\
  exists cb, (cb = [] \/ exists v, cb = [EMapBh BhResult v]) /\
    trace st' =
      trace st ++ [EBlockTruncatePage] ++ cb
        ++ (EFreeBlock <$> live (ini_data st) needed nS)
        ++ (if ind =? 0 then []
            else EBread ind
                 :: (EFreeBlock <$> live (default [] (bufs st !! ind)) 0 nM)
                 ++ [EFreeBlock ind; EBforget ind])
        ++ [EMarkInodeDirty].
Proof.
  intros Hready Hsmall needed ind nS nM st'.
  pose proof Hready as (Hlen & HD & HB & Hsz & Hint).
  pose proof (block_truncate_page_ready page races junk st Hready) as Hready0.
  destruct (block_truncate_page_run page races junk st)
    as (Hs0 & Hi0 & _ & _ & cb & Hcb & _ & Hquiet & _).
  cbn zeta in Hs0, Hi0, Hcb, Hquiet.
  subst st'. unfold wufs_truncate.
  set (st0 := block_truncate_page page races junk st) in *.
  assert (Hsmall0 : blocks_needed (i_size st0) <= WUFS_INODE_BPTRS - 1)
    by (by rewrite Hs0).
  destruct (truncate_small st0 Hready0 Hsmall0) as (Hi & Hb & Ht).
  destruct (truncate_pointers_fields st0) as (_ & Hp & _).
  cbn zeta in Hi, Hb, Ht.
  rewrite ?Hs0, ?Hi0 in Hi. rewrite ?Hs0, ?Hi0 in Hb.
  rewrite ?Hs0, ?Hi0 in Ht.
  fold needed ind nS nM in Hi, Hb, Ht.
  destruct Hquiet as (Hb0 & Hp0 & Hshape).
  { destruct (decide (i_size st mod WUFS_BLOCKSIZE = 0)) as [|Hne];
      [by left | right; left].
    rewrite (last_block_unaligned _ HB Hsz Hne). lia. }
  rewrite Hb0 in Hb, Ht.
  split; [exact Hi|]. split; [exact Hb|]. split; [by rewrite Hp|].
  exists cb. split; [exact Hshape|].
  unfold extends in Hcb. rewrite Ht, Hcb. cbn.
  by repeat rewrite <- app_assoc.
Qed.

Lemma wufs_truncate_large (page : option buffer_head)
    (races : list (option Z)) (junk : Z) (st : state) :
  truncate_ready st ->
  WUFS_INODE_BPTRS - 1 < blocks_needed (i_size st) ->
  let keep := blocks_needed (i_size st) - (WUFS_INODE_BPTRS - 1) in
  let ind := rd (ini_data st) (WUFS_INODE_BPTRS - 1) in
  let nM := Z.to_nat (WUFS_BLOCKSIZE ÷ 2 - keep) in
  let st0 := block_truncate_page page races junk st in
  let st' := wufs_truncate page races junk st in
  ini_data st' = ini_data st /\
  bufs st' = alter (fun a => fst (release nM keep a)) ind (bufs st0) /\
  pool st' = pool st0 /\
  (forall lba, lba <> ind -> bufs st0 !! lba = bufs st !! lba) /\
  (forall j, j <> keep - 1 -> entry st0 ind j = entry st ind j) /\
  exists cb, lookup_events ind (keep - 1) cb /\
    (i_size st mod WUFS_BLOCKSIZE = 0 \/ ind = 0 \/
     entry st ind (keep - 1) <> 0 ->
       bufs st0 = bufs st /\ pool st0 = pool st /\ lookup_only ind cb) /\
    trace st' =
      trace st ++ [EBlockTruncatePage] ++ cb ++ [EBread ind]
        ++ (EFreeBlock <$> live (default [] (bufs st !! ind)) keep nM)
        ++ [EMarkBufferDirty ind; EBrelse ind; EMarkInodeDirty].
Proof.
  intros Hready Hlarge keep ind nM st0 st'.
  pose proof Hready as (Hlen & HD & HB & Hsz & Hint).
  pose proof (block_truncate_page_ready page races junk st Hready) as Hready0.
  destruct (block_truncate_page_run page races junk st)
    as (Hs0 & Hi0 & _ & [Hother Hentries] & cb & Hcb & Hev & Hquiet & Hmapped).
  cbn zeta in Hs0, Hi0, Hcb, Hquiet, Hother, Hentries, Hev, Hmapped.
  fold st0 ind in Hs0, Hi0, Hcb, Hquiet, Hother, Hentries, Hev, Hmapped.
  subst st'. unfold wufs_truncate. fold st0.
  assert (Hlarge0 : WUFS_INODE_BPTRS - 1 < blocks_needed (i_size st0))
    by (by rewrite Hs0).
  destruct (truncate_large st0 Hready0 Hlarge0) as (Hi & Hb & Ht).
  destruct (truncate_pointers_fields st0) as (_ & Hp & _).
  cbn zeta in Hi, Hb, Ht.
  rewrite ?Hs0, ?Hi0 in Hi. rewrite ?Hs0, ?Hi0 in Hb.
  rewrite ?Hs0, ?Hi0 in Ht.
  fold keep ind nM in Hi, Hb, Ht.
  assert (Hsame : i_size st mod WUFS_BLOCKSIZE = 0 \/ ind = 0 ->
            bufs st0 = bufs st /\ pool st0 = pool st /\ lookup_only ind cb).
  { intros H. destruct Hquiet as (Hb0 & Hp0 & Hshape); [tauto|].
    split; [done|]. split; [done|]. intros e He.
    destruct Hshape as [->|(v & ->)]; [by apply elem_of_nil in He|].
    apply list_elem_of_singleton in He as ->. eauto. }
  assert (Hk : i_size st mod WUFS_BLOCKSIZE <> 0 ->
            last_block (i_size st) - (WUFS_INODE_BPTRS - 1) = keep - 1).
  { intros Hne. rewrite (last_block_unaligned _ HB Hsz Hne).
    unfold keep. lia. }
  assert (Hentry0 : forall j, j <> keep - 1 ->
            entry st0 ind j = entry st ind j).
  { intros j Hj.
    destruct (decide (i_size st mod WUFS_BLOCKSIZE = 0)) as [Hal|Hne].
    - destruct Hsame as [Hb0 _]; [by left|]. unfold entry. by rewrite Hb0.
    - apply Hentries. by rewrite (Hk Hne). }
  split; [exact Hi|]. split; [exact Hb|]. split; [exact Hp|].
  split; [exact Hother|]. split; [exact Hentry0|].
  exists cb. split.
  { destruct (decide (i_size st mod WUFS_BLOCKSIZE = 0)) as [Hal|Hne].
    - apply lookup_only_events. apply Hsame. by left.
    - by rewrite <- (Hk Hne). }
  split.
  { intros [H|[H|H]]; [apply Hsame; by left | apply Hsame; by right |].
    destruct (decide (i_size st mod WUFS_BLOCKSIZE = 0)) as [Hal|Hne];
      [apply Hsame; by left|].
    rewrite <- (Hk Hne) in H. by apply Hmapped. }
  unfold extends in Hcb. rewrite Ht, Hcb.
  rewrite (live_ext (default [] (bufs st0 !! ind))
             (default [] (bufs st !! ind)) keep).
  - cbn. by repeat rewrite <- app_assoc.
  - intros j Hj. apply (Hentry0 j). lia.
Qed.

Lemma wufs_truncate_fields (page : option buffer_head)
    (races : list (option Z)) (junk : Z) (st : state) :
  i_size (wufs_truncate page races junk st) = i_size st /\
  bh (wufs_truncate page races junk st) = bh st /\
  inode_touched (wufs_truncate page races junk st).
Proof.
  destruct (block_truncate_page_run page races junk st)
    as (Hs0 & _ & Hbh0 & _).
  destruct (truncate_pointers_fields (block_truncate_page page races junk st))
    as (Hs & _ & Hbh & Ht).
  unfold wufs_truncate. cbn zeta in *.
  split; [by rewrite Hs|]. split; [by rewrite Hbh | done].
Qed.

Lemma wufs_truncate_ready (page : option buffer_head)
    (races : list (option Z)) (junk : Z) (st : state) :
  truncate_ready st -> truncate_ready (wufs_truncate page races junk st).
Proof.
  intros Hready. pose proof Hready as (Hlen & HD & HB & Hsz & Hint).
  pose proof (blocks_needed_ceil (i_size st) HB Hsz) as Hceil.
  destruct (wufs_truncate_fields page races junk st) as (Hs & _).
  unfold truncate_ready. rewrite Hs. repeat split; try done.
  rewrite <- Hlen. f_equal.
  destruct (decide (blocks_needed (i_size st) <= WUFS_INODE_BPTRS - 1))
    as [Hsmall|Hlarge].
  - destruct (wufs_truncate_small page races junk st Hready Hsmall)
      as (Hi & _). cbn zeta in Hi. rewrite Hi.
    destruct (_ =? 0); by rewrite ?length_wr, release_length.
  - destruct (wufs_truncate_large page races junk st Hready) as (Hi & _);
      [lia|]. cbn zeta in Hi. by rewrite Hi.
Qed.

(** ** [wufs_truncate] *)

(** X16: [wufs_truncate] computes the number of blocks the size needs as a
    ceiling.  When that number is at most [WUFS_INODE_BPTRS - 1], the
    callback of [block_truncate_page] at most maps the buffer head of the
    page; every direct slot from that number on is freed if non-zero and
    reads 0 afterwards, the slots below keep their value, and, the indirect
    slot being non-zero, every non-zero entry of the indirection block is
    freed, the whole array is zeroed, the indirection block itself is freed
    and the indirect slot is zeroed.  When more blocks are needed, the
    entries of the indirection block from [needed - (WUFS_INODE_BPTRS - 1)]
    on are freed if non-zero and zeroed, and all the inode's slots, the
    indirect one included, are kept; so are the entries below, but for the
    entry of the last block of the file, [needed - WUFS_INODE_BPTRS]: it
    is kept when the size is on a block boundary, when it is not 0 or when
    the indirect slot is 0, and is otherwise left to the callback. *)
Theorem truncate_frees_beyond_size (page : option buffer_head)
    (races : list (option Z)) (junk : Z) (st : state) :
  truncate_ready st ->
  let needed := blocks_needed (i_size st) in
  let D := WUFS_INODE_BPTRS in
  let M := WUFS_BLOCKSIZE ÷ 2 in
  let ind := rd (ini_data st) (D - 1) in
  let blk := default [] (bufs st !! ind) in
  let st' := wufs_truncate page races junk st in
  (needed - 1) * WUFS_BLOCKSIZE < i_size st <= needed * WUFS_BLOCKSIZE /\
  (needed <= D - 1 ->
     (forall j, needed <= j < D - 1 -> rd (ini_data st') j = 0) /\
     (forall j, j < needed -> rd (ini_data st') j = rd (ini_data st) j) /\
     rd (ini_data st') (D - 1) = 0 /\
     (ind <> 0 -> forall j, 0 <= j < M -> entry st' ind j = 0) /\
     (forall lba, lba <> ind -> bufs st' !! lba = bufs st !! lba) /\
     (ind = 0 -> bufs st' = bufs st) /\
     exists cb, (cb = [] \/ exists v, cb = [EMapBh BhResult v]) /\
       extends st st'
         ([EBlockTruncatePage] ++ cb
          ++ (EFreeBlock <$> live (ini_data st) needed (Z.to_nat (D - 1 - needed)))
          ++ (if ind =? 0 then []
              else EBread ind :: (EFreeBlock <$> live blk 0 (Z.to_nat M))
                   ++ [EFreeBlock ind; EBforget ind])
          ++ [EMarkInodeDirty])) /\
  (D - 1 < needed ->
     let keepFrom := needed - (D - 1) in
     ini_data st' = ini_data st /\
     (forall j, keepFrom <= j < M -> entry st' ind j = 0) /\
     (forall j, j < keepFrom - 1 -> entry st' ind j = entry st ind j) /\
     (i_size st mod WUFS_BLOCKSIZE = 0 \/ ind = 0 \/
      entry st ind (keepFrom - 1) <> 0 ->
        entry st' ind (keepFrom - 1) = entry st ind (keepFrom - 1)) /\
     (forall lba, lba <> ind -> bufs st' !! lba = bufs st !! lba) /\
     exists cb, lookup_events ind (keepFrom - 1) cb /\
       (i_size st mod WUFS_BLOCKSIZE = 0 \/ ind = 0 \/
        entry st ind (keepFrom - 1) <> 0 -> lookup_only ind cb) /\
       extends st st'
         ([EBlockTruncatePage] ++ cb ++ [EBread ind]
          ++ (EFreeBlock <$> live blk keepFrom (Z.to_nat (M - keepFrom)))
          ++ [EMarkBufferDirty ind; EBrelse ind; EMarkInodeDirty])).
Proof.
  intros Hready needed D M ind blk st'.
  pose proof Hready as (Hlen & HD & HB & Hsz & Hint).
  pose proof (blocks_needed_ceil (i_size st) HB Hsz) as Hceil.
  fold needed in Hceil.
  assert (Hneeded : 0 <= needed) by nia.
  pose proof (block_truncate_page_ready page races junk st Hready) as Hready0.
  destruct (block_truncate_page_run page races junk st)
    as (Hs0 & Hi0 & _ & [Hother Hentries] & cb & Hcb & Hev & Hquiet & Hmapped).
  cbn zeta in *. fold D ind in Hother, Hentries, Hev, Hquiet, Hmapped.
  subst st'. unfold wufs_truncate.
  set (st0 := block_truncate_page page races junk st) in *.
  set (st' := truncate_pointers st0).
  assert (Hlast : i_size st mod WUFS_BLOCKSIZE <> 0 ->
            last_block (i_size st) = needed - 1)
    by (by apply last_block_unaligned).
  split; [exact Hceil|]. split.
  - intros Hsmall.
    assert (Hsmall0 : blocks_needed (i_size st0) <= WUFS_INODE_BPTRS - 1)
      by (by rewrite Hs0).
    destruct (truncate_small st0 Hready0 Hsmall0) as (Hi & Hb & Ht).
    cbn zeta in Hi, Hb, Ht.
    rewrite ?Hs0, ?Hi0 in Hi. rewrite ?Hs0, ?Hi0 in Hb.
    rewrite ?Hs0, ?Hi0 in Ht.
    fold needed D ind st' in Hi, Hb, Ht. rewrite Z.sub_0_r in Hb, Ht.
    fold M in Hb, Ht.
    destruct Hquiet as (Hb0 & _ & Hshape).
    { destruct (decide (i_size st mod WUFS_BLOCKSIZE = 0)) as [|Hne];
        [by left | right; left]. rewrite (Hlast Hne). unfold D in *. lia. }
    rewrite Hb0 in Hb, Ht. fold blk in Ht.
    assert (Hslot : forall j, j <> D - 1 ->
              rd (ini_data st') j =
              if decide (needed <= j < needed + Z.of_nat (Z.to_nat (D - 1 - needed)))
              then 0 else rd (ini_data st) j).
    { intros j Hj. rewrite Hi. destruct (ind =? 0).
      - apply release_rd.
      - rewrite rd_wr_other by done. apply release_rd. }
    assert (Hdirect : (forall j, needed <= j < D - 1 -> rd (ini_data st') j = 0)
              /\ (forall j, j < needed -> rd (ini_data st') j = rd (ini_data st) j)).
    { split; intros j Hj; rewrite Hslot by lia; case_decide; done || lia. }
    destruct Hdirect as [Hd1 Hd2].
    split; [exact Hd1|]. split; [exact Hd2|]. clear Hslot Hd1 Hd2.
    assert (Htrace : exists cb0, (cb0 = [] \/ exists v, cb0 = [EMapBh BhResult v]) /\
       extends st st'
         ([EBlockTruncatePage] ++ cb0
          ++ (EFreeBlock <$> live (ini_data st) needed (Z.to_nat (D - 1 - needed)))
          ++ (if ind =? 0 then []
              else EBread ind :: (EFreeBlock <$> live blk 0 (Z.to_nat M))
                   ++ [EFreeBlock ind; EBforget ind])
          ++ [EMarkInodeDirty])).
    { exists cb. split; [exact Hshape|].
      unfold extends in *. rewrite Ht, Hcb. cbn.
      by repeat rewrite <- app_assoc. }
    destruct (ind =? 0) eqn:Ez.
    + apply Z.eqb_eq in Ez.
      split; [rewrite Hi, release_rd; by case_decide|].
      split; [done|]. split; [intros lba _; by rewrite Hb|].
      split; [done | exact Htrace].
    + apply Z.eqb_neq in Ez.
      split; [rewrite Hi; apply rd_wr_same; rewrite release_length; lia|].
      split.
      { intros _ j Hj. unfold entry. rewrite Hb, lookup_alter_eq.
        destruct (bufs st !! ind) as [a|]; cbn; [|apply rd_nil].
        rewrite release_rd. case_decide; [done | lia]. }
      split.
      { intros lba Hne. rewrite Hb. by apply lookup_alter_ne. }
      split; [done | exact Htrace].
  - intros Hlarge. set (keepFrom := needed - (D - 1)).
    assert (Hlarge0 : WUFS_INODE_BPTRS - 1 < blocks_needed (i_size st0))
      by (by rewrite Hs0).
    destruct (truncate_large st0 Hready0 Hlarge0) as (Hi & Hb & Ht).
    cbn zeta in Hi, Hb, Ht.
    rewrite ?Hs0, ?Hi0 in Hi. rewrite ?Hs0, ?Hi0 in Hb.
    rewrite ?Hs0, ?Hi0 in Ht.
    fold needed D ind st' keepFrom M in Hi, Hb, Ht.
    assert (Hsame : i_size st mod WUFS_BLOCKSIZE = 0 \/ ind = 0 ->
              bufs st0 = bufs st /\ lookup_only ind cb).
    { intros H. destruct Hquiet as (Hb0 & _ & Hshape); [tauto|].
      split; [done|]. intros e He.
      destruct Hshape as [->|(v & ->)]; [by apply elem_of_nil in He|].
      apply list_elem_of_singleton in He as ->. eauto. }
    assert (Hk : i_size st mod WUFS_BLOCKSIZE <> 0 ->
              last_block (i_size st) - (D - 1) = keepFrom - 1)
      by (intros Hne; rewrite (Hlast Hne); unfold keepFrom; lia).
    assert (Hentry0 : forall j, j <> keepFrom - 1 ->
              entry st0 ind j = entry st ind j).
    { intros j Hj.
      destruct (decide (i_size st mod WUFS_BLOCKSIZE = 0)) as [Hal|Hne].
      - destruct Hsame as [Hb0 _]; [by left|]. unfold entry. by rewrite Hb0.
      - apply Hentries. by rewrite (Hk Hne). }
    assert (Hkeep0 : i_size st mod WUFS_BLOCKSIZE = 0 \/ ind = 0 \/
              entry st ind (keepFrom - 1) <> 0 ->
              bufs st0 = bufs st /\ lookup_only ind cb).
    { intros [H|[H|H]]; [apply Hsame; by left | apply Hsame; by right |].
      destruct (decide (i_size st mod WUFS_BLOCKSIZE = 0)) as [Hal|Hne];
        [apply Hsame; by left|].
      rewrite <- (Hk Hne) in H. destruct (Hmapped H) as (Hb0 & _ & Ho).
      by split. }
    assert (Hafter : forall j, entry st' ind j =
              if decide (keepFrom <= j < keepFrom + Z.of_nat (Z.to_nat (M - keepFrom)))
              then 0 else entry st0 ind j)
      by (intros j; apply (entry_released st0 st' ind keepFrom j _ Hb)).
    split; [exact Hi|]. split.
    { intros j Hj. rewrite Hafter. case_decide; [done | lia]. }
    split.
    { intros j Hj. rewrite Hafter. case_decide; [lia|].
      apply Hentry0. lia. }
    split.
    { intros H. rewrite Hafter. case_decide; [lia|].
      destruct (Hkeep0 H) as [Hb0 _]. unfold entry. by rewrite Hb0. }
    split.
    { intros lba Hne. rewrite Hb, lookup_alter_ne by done. by apply Hother. }
    exists cb. split.
    { destruct (decide (i_size st mod WUFS_BLOCKSIZE = 0)) as [Hal|Hne].
      - apply lookup_only_events. apply Hsame. by left.
      - by rewrite <- (Hk Hne). }
    split; [intros H; by apply Hkeep0|].
    unfold extends in *. rewrite Ht, Hcb.
    rewrite (live_ext (default [] (bufs st0 !! ind)) blk keepFrom).
    + cbn. by repeat rewrite <- app_assoc.
    + intros j Hj. apply (Hentry0 j). lia.
Qed.

(** C10: [wufs_truncate] tests the indirect slot only when the file fits
    the direct slots: there a zero indirect slot means that no block is
    read or changed.  When the file needs more blocks than there are direct
    slots, the block named by the indirect slot is read, rewritten and
    marked dirty whatever the slot holds; with the indirect slot at 0 this
    is block 0, whose entries from [needed - (WUFS_INODE_BPTRS - 1)] on are
    zeroed, the non-zero ones among them being handed to
    [wufs_free_block].  The block is rewritten as [block_truncate_page]
    left it: as it was before the call when the size is on a block
    boundary, when the indirect slot is 0, or when the last block of the
    file is mapped. *)
Theorem truncate_indirect_slot_unchecked (page : option buffer_head)
    (races : list (option Z)) (junk : Z) (st : state) :
  truncate_ready st ->
  let needed := blocks_needed (i_size st) in
  let D := WUFS_INODE_BPTRS in
  let M := WUFS_BLOCKSIZE ÷ 2 in
  let ind := rd (ini_data st) (D - 1) in
  let st0 := block_truncate_page page races junk st in
  let st' := wufs_truncate page races junk st in
  forall new, extends st st' new ->
  (needed <= D - 1 -> ind = 0 ->
     bufs st' = bufs st /\
     forall lba, (EBread lba ∉ new) /\ (EMarkBufferDirty lba ∉ new)) /\
  (D - 1 < needed ->
     (EBread ind ∈ new) /\ (EMarkBufferDirty ind ∈ new) /\
     bufs st' = alter (fun a => fst (release (Z.to_nat (M - (needed - (D - 1))))
                                           (needed - (D - 1)) a))
                      ind (bufs st0) /\
     (i_size st mod WUFS_BLOCKSIZE = 0 \/ ind = 0 \/
      entry st ind (needed - D) <> 0 -> bufs st0 = bufs st)) /\
  (D - 1 < needed -> ind = 0 ->
     (EBread 0 ∈ new) /\ (EMarkBufferDirty 0 ∈ new) /\
     bufs st' = alter (fun a => fst (release (Z.to_nat (M - (needed - (D - 1))))
                                           (needed - (D - 1)) a))
                      0 (bufs st) /\
     forall j, needed - (D - 1) <= j < M ->
       entry st' 0 j = 0 /\
       (entry st 0 j <> 0 -> EFreeBlock (entry st 0 j) ∈ new)).
Proof.
  intros Hready needed D M ind st0 st' new Hnew.
  assert (Hlarge_case : D - 1 < needed ->
     (EBread ind ∈ new) /\ (EMarkBufferDirty ind ∈ new) /\
     bufs st' = alter (fun a => fst (release (Z.to_nat (M - (needed - (D - 1))))
                                           (needed - (D - 1)) a))
                      ind (bufs st0) /\
     (i_size st mod WUFS_BLOCKSIZE = 0 \/ ind = 0 \/
      entry st ind (needed - D) <> 0 -> bufs st0 = bufs st) /\
     forall j, needed - (D - 1) <= j < M ->
       entry st' ind j = 0 /\
       (entry st ind j <> 0 -> EFreeBlock (entry st ind j) ∈ new)).
  { intros Hlarge.
    destruct (wufs_truncate_large page races junk st Hready Hlarge)
      as (Hi & Hb & _ & _ & _ & cb & _ & Hsame & Ht).
    cbn zeta in Hi, Hb, Hsame, Ht.
    fold needed D ind st0 st' M in Hi, Hb, Hsame, Ht.
    assert (Ht' : extends st st' _) by exact Ht.
    rewrite (extends_inj st st' _ _ Hnew Ht').
    split.
    { apply elem_of_app. right. apply elem_of_app. right.
      apply list_elem_of_here. }
    split.
    { do 4 (apply elem_of_app; right). apply list_elem_of_here. }
    split; [exact Hb|]. split.
    { intros H. apply Hsame.
      by replace (needed - (D - 1) - 1) with (needed - D) by lia. }
    intros j Hj. split.
    - rewrite (entry_released st0 st' ind _ j _ Hb). case_decide; [done | lia].
    - intros Hnz. apply elem_of_app. right. apply elem_of_app. right.
      apply elem_of_app. right. apply elem_of_app. left.
      apply list_elem_of_fmap. eexists. split; [done|].
      apply elem_of_live. split; [done|]. exists j. split; [lia | done]. }
  split; [|split].
  - intros Hsmall Hz.
    destruct (wufs_truncate_small page races junk st Hready Hsmall)
      as (Hi & Hb & _ & cb & Hshape & Ht).
    cbn zeta in Hi, Hb, Ht. fold needed D ind st' in Hi, Hb, Ht.
    rewrite Hz in Hb, Ht. cbn [Z.eqb] in Hb, Ht.
    split; [exact Hb|].
    assert (Ht' : extends st st' _) by exact Ht.
    rewrite (extends_inj st st' _ _ Hnew Ht').
    intros lba.
    split; intros Hin; apply elem_of_app in Hin as [Hin|Hin];
      try (apply list_elem_of_singleton in Hin; done);
      apply elem_of_app in Hin as [Hin|Hin];
      try (destruct Hshape as [->|(v & ->)];
           [by apply elem_of_nil in Hin
           |apply list_elem_of_singleton in Hin; done]);
      apply elem_of_app in Hin as [Hin|Hin];
      try (apply list_elem_of_fmap in Hin as (? & ? & ?); done);
      apply elem_of_app in Hin as [Hin|Hin];
      try (by apply elem_of_nil in Hin);
      apply list_elem_of_singleton in Hin; done.
  - intros Hlarge.
    destruct (Hlarge_case Hlarge) as (H1 & H2 & H3 & H4 & _). done.
  - intros Hlarge Hz.
    destruct (Hlarge_case Hlarge) as (H1 & H2 & H3 & H4 & H5).
    rewrite Hz in H1, H2, H3, H5.
    rewrite H4 in H3 by (right; by left). done.
Qed.

(** X1: [wufs_truncate] grows the allocation only through the callback it
    hands to [block_truncate_page].  It commits no block to a slot of the
    inode, leaves the size and the [bh] of the callers of [wufs_get_blk]
    alone, and always ends by stamping the inode and marking it dirty.  It
    leaves the allocator alone, and commits nothing at all, when the size
    is on a block boundary, when the file fits the direct slots, when the
    indirect slot is 0 or when the last block of the file is mapped;
    otherwise what it commits goes to the entry of the last block of the
    file. *)
Theorem truncate_allocates_in_callback_only (page : option buffer_head)
    (races : list (option Z)) (junk : Z) (st : state) :
  truncate_ready st ->
  let needed := blocks_needed (i_size st) in
  let ind := rd (ini_data st) (WUFS_INODE_BPTRS - 1) in
  let st' := wufs_truncate page races junk st in
  exists new, extends st st' new /\
    (forall i v, ECommitSlot i v ∉ new) /\
    (forall lba i v, ECommitEntry lba i v ∈ new ->
       lba = ind /\ i = needed - WUFS_INODE_BPTRS) /\
    (i_size st mod WUFS_BLOCKSIZE = 0 \/ needed <= WUFS_INODE_BPTRS - 1 \/
     ind = 0 \/ entry st ind (needed - WUFS_INODE_BPTRS) <> 0 ->
       pool st' = pool st /\ (forall n, ENewBlock n ∉ new) /\
       (forall lba i v, ECommitEntry lba i v ∉ new)) /\
    (exists pre, new = pre ++ [EMarkInodeDirty]) /\
    i_size st' = i_size st /\ bh st' = bh st /\ inode_touched st'.
Proof.
  intros Hready needed ind st'.
  destruct (wufs_truncate_fields page races junk st) as (Hs & Hbh & Ht).
  fold st' in Hs, Hbh, Ht.
  assert (Hquiet : forall cb : list event,
            (cb = [] \/ exists v, cb = [EMapBh BhResult v]) ->
            lookup_only ind cb).
  { intros cb [->|(v & ->)] e He; [by apply elem_of_nil in He|].
    apply list_elem_of_singleton in He as ->. eauto. }
  destruct (decide (needed <= WUFS_INODE_BPTRS - 1)) as [Hsmall|Hlarge].
  - destruct (wufs_truncate_small page races junk st Hready Hsmall)
      as (_ & _ & Hp & cb & Hshape & Htr).
    cbn zeta in Hp, Htr. fold needed ind st' in Hp, Htr.
    pose proof (Hquiet cb Hshape) as Hcb.
    assert (Hnone : forall e, e ∈ cb ->
              (forall i v, e <> ECommitSlot i v) /\
              (forall lba i v, e <> ECommitEntry lba i v) /\
              (forall n, e <> ENewBlock n)).
    { intros e He. destruct (Hcb e He) as [->|[->|(v & ->)]]; by repeat split. }
    eexists. split; [exact Htr|].
    assert (Hall : forall e,
              e ∈ [EBlockTruncatePage] ++ cb
                ++ (EFreeBlock <$> live (ini_data st) needed
                      (Z.to_nat (WUFS_INODE_BPTRS - 1 - needed)))
                ++ (if ind =? 0 then []
                    else EBread ind
                         :: (EFreeBlock <$> live (default [] (bufs st !! ind)) 0
                               (Z.to_nat (WUFS_BLOCKSIZE ÷ 2 - 0)))
                         ++ [EFreeBlock ind; EBforget ind])
                ++ [EMarkInodeDirty] ->
              (forall i v, e <> ECommitSlot i v) /\
              (forall lba i v, e <> ECommitEntry lba i v) /\
              (forall n, e <> ENewBlock n)).
    { intros e He. rewrite !elem_of_app in He.
      destruct He as [He|[He|[He|[He|He]]]].
      - apply list_elem_of_singleton in He as ->. by repeat split.
      - by apply Hnone.
      - apply list_elem_of_fmap in He as (v & -> & _). by repeat split.
      - destruct (ind =? 0); [by apply elem_of_nil in He|].
        apply elem_of_cons in He as [->|He]; [by repeat split|].
        apply elem_of_app in He as [He|He].
        + apply list_elem_of_fmap in He as (v & -> & _). by repeat split.
        + apply elem_of_cons in He as [->|He]; [by repeat split|].
          apply list_elem_of_singleton in He as ->. by repeat split.
      - apply list_elem_of_singleton in He as ->. by repeat split. }
    split; [intros i v Hin; by apply (proj1 (Hall _ Hin) i v)|].
    split.
    { intros lba i v Hin. by destruct (proj1 (proj2 (Hall _ Hin)) lba i v). }
    split.
    { intros _. split; [exact Hp|].
      split; [intros n Hin; by apply (proj2 (proj2 (Hall _ Hin)) n)|].
      intros lba i v Hin. by apply (proj1 (proj2 (Hall _ Hin)) lba i v). }
    split.
    { match goal with
      | |- exists pre, _ ++ ?a ++ ?b ++ ?c ++ _ = _ =>
          exists ([EBlockTruncatePage] ++ a ++ b ++ c)
      end.
      by repeat rewrite <- app_assoc. }
    done.
  - assert (Hlarge' : WUFS_INODE_BPTRS - 1 < needed) by lia.
    destruct (wufs_truncate_large page races junk st Hready Hlarge')
      as (_ & _ & Hp & _ & _ & cb & Hev & Hsame & Htr).
    cbn zeta in Hp, Hev, Hsame, Htr. fold needed ind st' in Hp, Hev, Hsame, Htr.
    replace (needed - (WUFS_INODE_BPTRS - 1) - 1)
      with (needed - WUFS_INODE_BPTRS) in Hev, Hsame by lia.
    eexists. split; [exact Htr|].
    assert (Hrest : forall e,
              e ∈ [EBread ind]
                ++ (EFreeBlock <$> live (default [] (bufs st !! ind))
                      (needed - (WUFS_INODE_BPTRS - 1))
                      (Z.to_nat (WUFS_BLOCKSIZE ÷ 2
                                 - (needed - (WUFS_INODE_BPTRS - 1)))))
                ++ [EMarkBufferDirty ind; EBrelse ind; EMarkInodeDirty] ->
              (forall i v, e <> ECommitSlot i v) /\
              (forall lba i v, e <> ECommitEntry lba i v) /\
              (forall n, e <> ENewBlock n)).
    { intros e He. rewrite !elem_of_app in He.
      destruct He as [He|[He|He]].
      - apply list_elem_of_singleton in He as ->. by repeat split.
      - apply list_elem_of_fmap in He as (v & -> & _). by repeat split.
      - repeat (apply elem_of_cons in He as [->|He]; [by repeat split|]).
        by apply elem_of_nil in He. }
    assert (Hsplit : forall e,
              e ∈ [EBlockTruncatePage] ++ cb ++ [EBread ind]
                ++ (EFreeBlock <$> live (default [] (bufs st !! ind))
                      (needed - (WUFS_INODE_BPTRS - 1))
                      (Z.to_nat (WUFS_BLOCKSIZE ÷ 2
                                 - (needed - (WUFS_INODE_BPTRS - 1)))))
                ++ [EMarkBufferDirty ind; EBrelse ind; EMarkInodeDirty] ->
              e = EBlockTruncatePage \/ e ∈ cb \/
              ((forall i v, e <> ECommitSlot i v) /\
               (forall lba i v, e <> ECommitEntry lba i v) /\
               (forall n, e <> ENewBlock n))).
    { intros e He. apply elem_of_app in He as [He|He].
      - apply list_elem_of_singleton in He. by left.
      - apply elem_of_app in He as [He|He]; [by right; left|].
        right. right. by apply Hrest. }
    split.
    { intros i v Hin. destruct (Hsplit _ Hin) as [H|[H|H]]; [done| |].
      - destruct (Hev _ H)
          as [?|[?|[?|[?|[(? & ?)|[(? & ?)|[(? & ? & _)|(? & ?)]]]]]]]; done.
      - by apply (proj1 H i v). }
    split.
    { intros lba i v Hin. destruct (Hsplit _ Hin) as [H|[H|H]]; [done| |].
      - destruct (Hev _ H)
          as [?|[?|[?|[?|[(? & ?)|[(? & ?)|[(? & ? & _)|(w & Hw)]]]]]]];
          try done. by injection Hw as -> -> _.
      - by destruct (proj1 (proj2 H) lba i v). }
    split.
    { intros Hq.
      destruct Hsame as (_ & Hp0 & Honly); [destruct Hq as [?|[?|[?|?]]]; auto; lia|].
      split; [by rewrite Hp|].
      split.
      - intros n Hin. destruct (Hsplit _ Hin) as [H|[H|H]]; [done| |].
        + destruct (Honly _ H) as [?|[?|(? & ?)]]; done.
        + by apply (proj2 (proj2 H) n).
      - intros lba i v Hin. destruct (Hsplit _ Hin) as [H|[H|H]]; [done| |].
        + destruct (Honly _ H) as [?|[?|(? & ?)]]; done.
        + by apply (proj1 (proj2 H) lba i v). }
    split.
    { match goal with
      | |- exists pre, _ ++ ?a ++ ?b ++ ?c ++ _ = _ =>
          exists ([EBlockTruncatePage] ++ a ++ b ++ c
                  ++ [EMarkBufferDirty ind; EBrelse ind])
      end.
      by repeat rewrite <- app_assoc. }
    done.
Qed.


(** X3: [wufs_truncate] maps nothing, but for the last block of the
    file: a logical block that is a hole before is a hole after when it is
    not the block that holds the end of the file, or when the size is on a
    block boundary, or in the direct range. *)
Theorem truncate_keeps_holes (page : option buffer_head)
    (races : list (option Z)) (junk : Z) (st : state) (b : Z) :
  truncate_ready st ->
  hole st b = true ->
  b <> last_block (i_size st) \/ i_size st mod WUFS_BLOCKSIZE = 0 \/
  b < WUFS_INODE_BPTRS - 1 ->
  hole (wufs_truncate page races junk st) b = true.
Proof.
  intros Hready Hhole Hb.
  pose proof (block_truncate_page_ready page races junk st Hready) as Hready0.
  destruct (block_truncate_page_run page races junk st)
    as (_ & Hi0 & _ & [_ Hentries] & cb & _ & _ & Hquiet & _).
  cbn zeta in Hi0, Hentries, Hquiet.
  unfold wufs_truncate. apply truncate_pointers_keeps_holes; [done|].
  revert Hhole. unfold hole. rewrite Hi0.
  destruct (b <? WUFS_INODE_BPTRS - 1) eqn:Edirect; [done|].
  apply Z.ltb_ge in Edirect.
  intros [H|H]%orb_true_iff; apply orb_true_iff; [by left | right].
  destruct Hb as [Hb|[Hb|Hb]]; [| |lia].
  - rewrite Hentries; [done | lia].
  - destruct Hquiet as (Hb0 & _); [by left|]. unfold entry in *.
    by rewrite Hb0.
Qed.

(** X4: a second [wufs_truncate] at the same size finds nothing to do: its
    loops free no block and leave every pointer of the inode, and every
    block, as its own call of [block_truncate_page] left them; and that
    call changes no block when the size is on a block boundary, when the
    file fits the direct slots, when the indirect slot is 0 or when the
    last block of the file is mapped: then the second [wufs_truncate] frees
    nothing and leaves every pointer and every block as the first one left
    them. *)
Theorem truncate_twice_frees_nothing (page page' : option buffer_head)
    (races races' : list (option Z)) (junk junk' : Z) (st : state) :
  truncate_ready st ->
  let needed := blocks_needed (i_size st) in
  let st1 := wufs_truncate page races junk st in
  let ind1 := rd (ini_data st1) (WUFS_INODE_BPTRS - 1) in
  let st0 := block_truncate_page page' races' junk' st1 in
  let st2 := wufs_truncate page' races' junk' st1 in
  ini_data st2 = ini_data st1 /\ bufs st2 = bufs st0 /\
  (exists new, extends st0 st2 new /\ forall v, EFreeBlock v ∉ new) /\
  (i_size st mod WUFS_BLOCKSIZE = 0 \/ needed <= WUFS_INODE_BPTRS - 1 \/
   ind1 = 0 \/ entry st1 ind1 (needed - WUFS_INODE_BPTRS) <> 0 ->
     bufs st2 = bufs st1 /\
     exists new, extends st1 st2 new /\ forall v, EFreeBlock v ∉ new).
Proof.
  intros Hready needed st1 ind1 st0 st2.
  pose proof Hready as (Hlen & HD & HB & Hsz & Hint).
  pose proof (blocks_needed_ceil (i_size st) HB Hsz) as Hceil.
  fold needed in Hceil.
  assert (Hneeded : 0 <= needed) by nia.
  pose proof (wufs_truncate_ready page races junk st Hready) as Hready1.
  destruct (wufs_truncate_fields page races junk st) as (Hs1 & _).
  fold st1 in Hready1, Hs1.
  pose proof (block_truncate_page_ready page' races' junk' st1 Hready1)
    as Hready0.
  destruct (block_truncate_page_run page' races' junk' st1)
    as (Hs0 & Hi0 & _ & [Hother Hentries] & cb & Hcb & _ & Hquiet & Hmapped).
  cbn zeta in Hs0, Hi0, Hother, Hentries, Hcb, Hquiet, Hmapped.
  fold st0 ind1 in Hready0, Hs0, Hi0, Hother, Hentries, Hcb, Hquiet, Hmapped.
  rewrite Hs1 in Hentries, Hquiet, Hmapped.
  assert (Hlast : i_size st mod WUFS_BLOCKSIZE <> 0 ->
            last_block (i_size st) = needed - 1)
    by (by apply last_block_unaligned).
  (* what the first call left *)
  assert (Hzs : needed <= WUFS_INODE_BPTRS - 1 ->
            forall j, needed <= j <= WUFS_INODE_BPTRS - 1 ->
              rd (ini_data st1) j = 0).
  { intros Hsmall j Hj.
    destruct (wufs_truncate_small page races junk st Hready Hsmall) as (Hi & _).
    cbn zeta in Hi. fold needed st1 in Hi. rewrite Hi.
    destruct (rd (ini_data st) (WUFS_INODE_BPTRS - 1) =? 0) eqn:Ez.
    - rewrite release_rd. case_decide; [done|].
      apply Z.eqb_eq in Ez. by assert (j = WUFS_INODE_BPTRS - 1) as -> by lia.
    - rewrite rd_wr_zero. case_decide; [done|].
      rewrite release_rd. case_decide; [done | lia]. }
  assert (Hzl : WUFS_INODE_BPTRS - 1 < needed ->
            forall j, needed - (WUFS_INODE_BPTRS - 1) <= j < WUFS_BLOCKSIZE ÷ 2 ->
              entry st1 ind1 j = 0).
  { intros Hlarge j Hj.
    destruct (wufs_truncate_large page races junk st Hready Hlarge)
      as (Hi & Hb & _).
    cbn zeta in Hi, Hb. fold needed st1 in Hi, Hb.
    unfold ind1. rewrite Hi.
    rewrite (entry_released _ st1 _ _ j _ Hb). case_decide; [done | lia]. }
  (* the second call of block_truncate_page keeps that *)
  assert (Hsame : i_size st mod WUFS_BLOCKSIZE = 0 \/
            needed <= WUFS_INODE_BPTRS - 1 \/ ind1 = 0 \/
            entry st1 ind1 (needed - WUFS_INODE_BPTRS) <> 0 ->
            bufs st0 = bufs st1 /\ forall v, EFreeBlock v ∉ cb).
  { intros Hq.
    destruct (decide (i_size st mod WUFS_BLOCKSIZE = 0)) as [Hal|Hne].
    { destruct Hquiet as (Hb0 & _ & Hshape); [by left|]. split; [done|].
      intros v Hin. destruct Hshape as [->|(w & ->)];
        [by apply elem_of_nil in Hin | by apply list_elem_of_singleton in Hin]. }
    destruct Hq as [Hq|[Hq|[Hq|Hq]]]; [done| | |].
    - destruct Hquiet as (Hb0 & _ & Hshape);
        [right; left; rewrite (Hlast Hne); lia|]. split; [done|].
      intros v Hin. destruct Hshape as [->|(w & ->)];
        [by apply elem_of_nil in Hin | by apply list_elem_of_singleton in Hin].
    - destruct Hquiet as (Hb0 & _ & Hshape); [by right; right|].
      split; [done|].
      intros v Hin. destruct Hshape as [->|(w & ->)];
        [by apply elem_of_nil in Hin | by apply list_elem_of_singleton in Hin].
    - destruct Hmapped as (Hb0 & _ & Honly).
      { rewrite (Hlast Hne).
        by replace (needed - 1 - (WUFS_INODE_BPTRS - 1))
          with (needed - WUFS_INODE_BPTRS) by lia. }
      split; [done|]. intros v Hin.
      destruct (Honly _ Hin) as [?|[?|(? & ?)]]; done. }
  destruct (truncate_pointers_idle st0 Hready0) as (Hi2 & Hb2 & new & Hnew & Hfree).
  { cbn zeta. rewrite Hs0, Hs1, Hi0. fold needed. exact Hzs. }
  { cbn zeta. rewrite Hs0, Hs1, Hi0. fold needed ind1.
    intros Hlarge j Hj.
    destruct (decide (i_size st mod WUFS_BLOCKSIZE = 0)) as [Hal|Hne].
    - destruct Hsame as [Hb0 _]; [by left|]. unfold entry.
      rewrite Hb0. by apply Hzl.
    - rewrite Hentries by (rewrite (Hlast Hne); lia). by apply Hzl. }
  change (truncate_pointers st0) with st2 in Hi2, Hb2, Hnew.
  split; [by rewrite Hi2|]. split; [exact Hb2|].
  split; [by exists new|].
  intros Hq. destruct (Hsame Hq) as [Hb0 Hcbfree].
  split; [by rewrite Hb2|].
  exists (EBlockTruncatePage :: cb ++ new). split.
  - unfold extends in *. rewrite Hnew, Hcb. cbn.
    by repeat rewrite <- app_assoc.
  - intros v Hin. apply elem_of_cons in Hin as [Hin|Hin]; [done|].
    apply elem_of_app in Hin as [Hin|Hin]; [by apply Hcbfree in Hin|].
    by apply Hfree in Hin.
Qed.

(** ** [wufs_blocks], and a lookup after [wufs_truncate] *)

(** X13: for a size that is not negative and a count that fits an
    [unsigned int], [wufs_blocks] is the least number of blocks of
    [s_blocksize] bytes that cover [size] bytes. *)
Theorem wufs_blocks_ceiling (size s_blocksize : Z) :
  0 < s_blocksize -> 0 <= size -> size <= 4294967295 * s_blocksize ->
  (wufs_blocks size s_blocksize - 1) * s_blocksize < size
  <= wufs_blocks size s_blocksize * s_blocksize.
Proof.
  intros Hb Hs Hmax. unfold wufs_blocks, to_uint.
  rewrite Z.quot_div_nonneg by lia.
  pose proof (Z.div_mod (size + s_blocksize - 1) s_blocksize ltac:(lia)).
  pose proof (Z.mod_pos_bound (size + s_blocksize - 1) s_blocksize Hb).
  assert (0 <= (size + s_blocksize - 1) / s_blocksize < 4294967296)
    by (split; [apply Z.div_pos; lia | apply Z.div_lt_upper_bound; lia]).
  rewrite Z.mod_small by done. nia.
Qed.

(** X14: the count is returned as an [unsigned int]: 2^32 blocks more give
    the same value. *)
Theorem wufs_blocks_wraps (size s_blocksize : Z) :
  0 < s_blocksize -> 0 <= size ->
  size + 4294967296 * s_blocksize + s_blocksize - 1 < 9223372036854775808 ->
  wufs_blocks (size + 4294967296 * s_blocksize) s_blocksize
  = wufs_blocks size s_blocksize.
Proof.
  intros Hb Hs _. unfold wufs_blocks, to_uint.
  rewrite !Z.quot_div_nonneg by lia.
  replace (size + 4294967296 * s_blocksize + s_blocksize - 1)
    with (size + s_blocksize - 1 + 4294967296 * s_blocksize) by lia.
  rewrite Z.div_add by lia.
  rewrite <- Zplus_mod_idemp_r, Z.mod_same, Z.add_0_r by lia. done.
Qed.

(** X15: once [wufs_truncate] has cut a file down to a size that the
    direct slots cover, a lookup without [create] of any block from
    [wufs_blocks(size)] on returns [-EIO] and changes nothing. *)
Theorem truncate_then_lookup (page : option buffer_head)
    (races races' : list (option Z)) (junk junk' b : Z) (st : state) :
  truncate_ready st ->
  wufs_blocks (i_size st) WUFS_BLOCKSIZE <= WUFS_INODE_BPTRS - 1 ->
  wufs_blocks (i_size st) WUFS_BLOCKSIZE <= b ->
  wufs_get_blk races' junk' b false (wufs_truncate page races junk st)
  = (- EIO, wufs_truncate page races junk st).
Proof.
  intros Hready.
  pose proof Hready as (Hlen & HD & HB & Hsz & Hint).
  pose proof (blocks_needed_ceil (i_size st) HB Hsz) as Hceil.
  assert (Hneeded : 0 <= blocks_needed (i_size st)) by nia.
  rewrite wufs_blocks_small by lia.
  intros Hsmall Hb.
  destruct (wufs_truncate_small page races junk st Hready Hsmall)
    as (Hi & _ & _).
  cbn zeta in Hi.
  unfold wufs_get_blk.
  destruct ((b <? 0) || (b >=? sbi_max_fblks)); [done|].
  assert (Hslot : rd (ini_data (wufs_truncate page races junk st)) (slot_of b)
                  = 0).
  { rewrite Hi. unfold slot_of.
    destruct (b <? WUFS_INODE_BPTRS - 1) eqn:E; tests_to_Z.
    - destruct (_ =? 0); rewrite ?rd_wr_other by lia;
        rewrite release_rd; case_decide; done || lia.
    - destruct (_ =? 0) eqn:Ez; tests_to_Z.
      + rewrite release_rd. by case_decide.
      + apply rd_wr_same. rewrite release_length. lia. }
  apply Z.eqb_eq in Hslot. unfold slot_of in Hslot.
  destruct (b >=? WUFS_INODE_BPTRS - 1) eqn:E.
  - assert ((b <? WUFS_INODE_BPTRS - 1) = false) as Hf by lia.
    rewrite Hf in Hslot.
    unfold retrieve_indirect. rewrite indirect_start_pass. cbn zeta.
    by rewrite Hslot.
  - assert ((b <? WUFS_INODE_BPTRS - 1) = true) as Hf by lia.
    rewrite Hf in Hslot.
    rewrite retrieve_direct_pass. cbn zeta. by rewrite Hslot.
Qed.

End Wufs.

(** * The routines on the inodes of the examples *)

(** C1: [wufs_get_blk] with [create = 0] on a hole inside an existing
    indirection block.  Block 7 of [inode_hole_entry] is such a hole; the
    call does not fail: it takes block 21 from the allocator, commits it to
    entry 0 of block 20 and returns 0 with [bh] mapped to it.  On a direct
    hole, or with the indirect slot at 0, the same call returns [-EIO] and
    changes nothing. *)
Theorem hole_in_indirect_block_is_allocated (junk : Z) :
  let r := wufs_get_blk 8 11 1000 [] junk 7 false inode_hole_entry in
  hole 8 inode_hole_entry 7 = true /\
  fst r = 0 /\
  entry inode_hole_entry 20 0 = 0 /\ entry (snd r) 20 0 = 21 /\
  pool inode_hole_entry = [21] /\ pool (snd r) = [] /\
  bh (snd r) = mkBh true true 21 /\
  trace (snd r) =
    [EBread 20; ENewBlock 21; ECommitEntry 20 0 21; EMarkBufferDirty 20;
     EBrelse 20; ESetBufferNew BhResult; EMapBh BhResult 21] /\
  wufs_get_blk 8 11 1000 [] junk 2 false inode_hole_entry
    = (- EIO, inode_hole_entry).
Proof. cbn zeta. repeat split; by vm_compute. Qed.

(** C2: a lost race for the indirect slot.  The file is empty; the call
    takes block 20 for the indirection block, and finds under the lock that
    a competitor has committed block 30.  It then calls [wufs_free_block]
    twice: on its candidate 20, and on [data_LBA], a local variable that has
    not been assigned, so that the block freed is whatever [junk] the stack
    holds.  (The lost races in [retrieve_direct], two in a row here on
    slot 2, and the lost race for an entry, later in [retrieve_indirect],
    free the candidate only.) *)
Theorem lost_indirect_race_frees_twice (junk : Z) :
  let r := wufs_get_blk 8 11 1000 [Some 30] junk 7 true inode_empty_raced in
  fst r = 0 /\
  trace (snd r) =
    [ENewBlock 20; EGetblk 20; ESetBufferNew (BhBlock 20);
     EMapBh (BhBlock 20) 20; EBforget 20;
     EFreeBlock 20; EFreeBlock junk;
     EBread 30; ENewBlock 21; ECommitEntry 30 0 21; EMarkBufferDirty 30;
     EBrelse 30; ESetBufferNew BhResult; EMapBh BhResult 21] /\
  trace (snd (wufs_get_blk 8 11 1000 [Some 30; Some 0; Some 31] junk 2 true
                inode_empty_raced))
    = [ENewBlock 20; EFreeBlock 20; ENewBlock 21; EFreeBlock 21;
       EMapBh BhResult 31] /\
  trace (snd (wufs_get_blk 8 11 1000 [Some 30] junk 7 true inode_hole_entry))
    = [EBread 20; ENewBlock 21; EFreeBlock 21; ESetBufferNew BhResult;
       EMapBh BhResult 30].
Proof. cbn zeta. repeat split; by vm_compute. Qed.

(** C3: the first allocation in the indirect range.  Block 20, which the
    allocator gives for the indirection block, is committed to the indirect
    slot with the content it had: no entry is written before the commit.
    Its entry 0 still reads 99, so that logical block 7 comes back mapped to
    block 99, and no data block is allocated. *)
Theorem fresh_indirect_block_keeps_stale_entries (junk : Z) :
  let r := wufs_get_blk 8 11 1000 [] junk 7 true inode_empty_stale in
  fst r = 0 /\
  rd (ini_data (snd r)) 7 = 20 /\
  bufs (snd r) !! 20 = Some [99; 0; 0; 0] /\
  entry (snd r) 20 0 = 99 /\
  b_blocknr (bh (snd r)) = 99 /\
  pool (snd r) = [21] /\
  trace (snd r) =
    [ENewBlock 20; EGetblk 20; ESetBufferNew (BhBlock 20);
     EMapBh (BhBlock 20) 20; ECommitSlot 7 20; EMarkBufferDirty 20;
     EBrelse 20; EMarkInodeDirty; EBread 20; ESetBufferNew BhResult;
     EMapBh BhResult 99].
Proof. cbn zeta. repeat split; by vm_compute. Qed.

(** C6: [wufs_get_blk] with [create = 1] on a block that is mapped already.
    Logical block 7 of [inode_mapped_entry] is mapped to block 21; the call
    allocates and commits nothing, and yet flags [bh] as new.  In the direct
    range the same call, on logical block 0, leaves the flag alone. *)
Theorem mapped_indirect_block_flagged_new (junk : Z) :
  let r := wufs_get_blk 8 11 1000 [] junk 7 true inode_mapped_entry in
  hole 8 inode_mapped_entry 7 = false /\
  fst r = 0 /\
  bh (snd r) = mkBh true true 21 /\
  pool (snd r) = pool inode_mapped_entry /\
  ini_data (snd r) = ini_data inode_mapped_entry /\
  bufs (snd r) = bufs inode_mapped_entry /\
  trace (snd r) = [EBread 20; ESetBufferNew BhResult; EMapBh BhResult 21] /\
  bh (snd (wufs_get_blk 8 11 1000 [] junk 0 true inode_mapped_entry))
    = mkBh false true 10.
Proof. cbn zeta. repeat split; by vm_compute. Qed.

(** C5: in range, a logical block below [WUFS_INODE_BPTRS - 1] goes to
    [retrieve_direct] on the slot of that index, and a logical block from
    [WUFS_INODE_BPTRS - 1] on goes to [retrieve_indirect] on the last slot,
    at the block's distance from [WUFS_INODE_BPTRS - 1]; with 8 pointers,
    block 6 is the last direct one and block 7 is entry 0 of the indirection
    block. *)
Theorem resolve_dispatch (D max now : Z) (races : list (option Z)) (junk : Z)
    (create : bool) (st : state) :
  (forall b, 0 <= b < max -> b < D - 1 ->
     wufs_get_blk D max now races junk b create st
     = retrieve_direct now races b create st) /\
  (forall b, 0 <= b < max -> D - 1 <= b ->
     wufs_get_blk D max now races junk b create st
     = retrieve_indirect now races (D - 1) create junk (b - (D - 1)) st) /\
  (6 < max ->
     wufs_get_blk 8 max now races junk 6 create st
     = retrieve_direct now races 6 create st) /\
  (7 < max ->
     wufs_get_blk 8 max now races junk 7 create st
     = retrieve_indirect now races 7 create junk 0 st).
Proof.
  assert (Hdirect : forall D' b, 0 <= b < max -> b < D' - 1 ->
            wufs_get_blk D' max now races junk b create st
            = retrieve_direct now races b create st).
  { intros D' b Hb Hlt. rewrite wufs_get_blk_dispatch by done.
    by assert ((b <? D' - 1) = true) as -> by lia. }
  assert (Hindirect : forall D' b, 0 <= b < max -> D' - 1 <= b ->
            wufs_get_blk D' max now races junk b create st
            = retrieve_indirect now races (D' - 1) create junk (b - (D' - 1)) st).
  { intros D' b Hb Hge. rewrite wufs_get_blk_dispatch by done.
    by assert ((b <? D' - 1) = false) as -> by lia. }
  split; [apply Hdirect|]. split; [apply Hindirect|]. split.
  - intros Hmax. apply Hdirect; lia.
  - intros Hmax. apply (Hindirect 8 7); lia.
Qed.

Lemma resolve_dispatch_witness :
  wufs_get_blk 8 11 1000 [] 0 3 true inode_hole_entry
    = retrieve_direct 1000 [] 3 true inode_hole_entry /\
  wufs_get_blk 8 11 1000 [] 0 9 true inode_hole_entry
    = retrieve_indirect 1000 [] 7 true 0 2 inode_hole_entry /\
  wufs_get_blk 8 11 1000 [] 0 6 true inode_hole_entry
    = retrieve_direct 1000 [] 6 true inode_hole_entry /\
  wufs_get_blk 8 11 1000 [] 0 7 true inode_hole_entry
    = retrieve_indirect 1000 [] 7 true 0 0 inode_hole_entry.
Proof.
  destruct (resolve_dispatch 8 11 1000 [] 0 true inode_hole_entry)
    as (Hd & Hi & H6 & H7).
  split; [apply Hd; lia|]. split; [apply (Hi 9); lia|].
  split; [apply H6; lia | apply H7; lia].
Defined.

(** Against C7 as the specification has it: the empty file of
    [inode_last_block] has an allocator with one block left.
    [wufs_get_blk(..., create = 1)] on logical block 7 returns [-ENOSPC],
    and the error path leaves state behind: block 20, the last block,
    committed to the indirect slot, which held 0; the allocator emptied;
    the inode stamped and marked dirty. *)
Lemma exhaustion_after_indirect_commit :
  fst (wufs_get_blk 8 11 1000 [] 0 7 true inode_last_block) = - ENOSPC /\
  rd (ini_data inode_last_block) 7 = 0 /\
  rd (ini_data (snd (wufs_get_blk 8 11 1000 [] 0 7 true inode_last_block))) 7
  = 20 /\
  pool inode_last_block = [20] /\
  pool (snd (wufs_get_blk 8 11 1000 [] 0 7 true inode_last_block)) = [] /\
  i_dirty inode_last_block = false /\
  i_dirty (snd (wufs_get_blk 8 11 1000 [] 0 7 true inode_last_block)) = true /\
  ini_data (snd (wufs_get_blk 8 11 1000 [] 0 7 true inode_last_block))
  <> ini_data inode_last_block.
Proof. repeat split; try reflexivity. vm_compute. discriminate. Qed.

(** Exhaustion at the first allocation, in the direct range and in an
    indirection block that exists, and exhaustion after the commit of the
    indirection block. *)
Lemma exhaustion_leaves_hole_witness :
  hole 8 inode_no_space 2 = true /\
  fst (wufs_get_blk 8 11 1000 [] 0 2 true inode_no_space) = - ENOSPC /\
  hole 8 (snd (wufs_get_blk 8 11 1000 [] 0 2 true inode_no_space)) 2 = true /\
  hole 8 (snd (wufs_get_blk 8 11 1000 [] 0 7 true inode_no_space)) 7 = true /\
  inode_untouched inode_no_space
    (snd (wufs_get_blk 8 11 1000 [] 0 7 true inode_no_space)) /\
  hole 8 (snd (wufs_get_blk 8 11 1000 [] 0 7 true inode_last_block)) 7 = true /\
  inode_touched 1000
    (snd (wufs_get_blk 8 11 1000 [] 0 7 true inode_last_block)).
Proof.
  split; [reflexivity|].
  destruct (exhaustion_leaves_hole 8 11 1000 [] 0 2 inode_no_space)
    as [_ Hdirect].
  destruct (exhaustion_leaves_hole 8 11 1000 [] 0 7 inode_no_space)
    as [Hevent _].
  destruct (exhaustion_leaves_hole 8 11 1000 [] 0 7 inode_last_block)
    as [Hlast _].
  split; [apply Hdirect; [lia | reflexivity | reflexivity]|].
  split; [apply Hdirect; [lia | reflexivity | reflexivity]|].
  destruct (Hevent [EBread 20; ENewBlock 0]) as (_ & Hh & _ & _ & _ & Hu);
    [reflexivity | apply list_elem_of_further, list_elem_of_here|].
  split; [exact Hh|]. split.
  { apply Hu. intros i v H.
    repeat (apply elem_of_cons in H as [H|H]; [discriminate|]).
    by apply elem_of_nil in H. }
  destruct (Hlast [ENewBlock 20; EGetblk 20; ESetBufferNew (BhBlock 20);
                   EMapBh (BhBlock 20) 20; ECommitSlot 7 20;
                   EMarkBufferDirty 20; EBrelse 20; EMarkInodeDirty;
                   EBread 20; ENewBlock 0])
    as (_ & Hh' & _ & _ & Ht & _);
    [reflexivity | do 9 apply list_elem_of_further; apply list_elem_of_here|].
  split; [exact Hh'|]. apply Ht. exists 7, 20.
  do 4 apply list_elem_of_further. apply list_elem_of_here.
Defined.

(** Against C8 as the specification has it: block 11 is out of range and
    block 2 is a hole in range, and [wufs_get_blk] with [create = 0] returns
    the same value, [-EIO], for both. *)
Lemma out_of_range_same_as_hole :
  ~ (0 <= 11 < 11) /\ 0 <= 2 < 11 /\ hole 8 inode_hole_entry 2 = true /\
  fst (wufs_get_blk 8 11 1000 [] 0 11 false inode_hole_entry)
  = fst (wufs_get_blk 8 11 1000 [] 0 2 false inode_hole_entry).
Proof. repeat split; (lia || by vm_compute). Qed.

Lemma out_of_range_and_hole_are_eio_witness :
  wufs_get_blk 8 11 1000 [] 0 11 true inode_hole_entry
    = (- EIO, inode_hole_entry) /\
  wufs_get_blk 8 11 1000 [] 0 2 false inode_hole_entry
    = (- EIO, inode_hole_entry).
Proof.
  split.
  - apply (proj1 (out_of_range_and_hole_are_eio 8 11 1000 [] 0 11 true
                    inode_hole_entry)).
    right. lia.
  - apply (proj2 (out_of_range_and_hole_are_eio 8 11 1000 [] 0 2 false
                    inode_hole_entry)); [lia | reflexivity].
Defined.

(** Against C9 as the specification has it: on [inode_hole_entry] the call
    commits the new block 21 to entry 0 of the indirection block and flags
    [bh] as new, and the inode is still clean, with its timestamps at 5
    while the clock is at 1000: [mark_inode_dirty] is not called. *)
Lemma entry_commit_leaves_inode_clean :
  fst (wufs_get_blk 8 11 1000 [] 0 7 true inode_hole_entry) = 0 /\
  trace (snd (wufs_get_blk 8 11 1000 [] 0 7 true inode_hole_entry)) =
    [EBread 20; ENewBlock 21; ECommitEntry 20 0 21; EMarkBufferDirty 20;
     EBrelse 20; ESetBufferNew BhResult; EMapBh BhResult 21] /\
  b_new (bh (snd (wufs_get_blk 8 11 1000 [] 0 7 true inode_hole_entry)))
    = true /\
  i_dirty (snd (wufs_get_blk 8 11 1000 [] 0 7 true inode_hole_entry))
    = false /\
  i_mtime (snd (wufs_get_blk 8 11 1000 [] 0 7 true inode_hole_entry)) = 5 /\
  i_ctime (snd (wufs_get_blk 8 11 1000 [] 0 7 true inode_hole_entry)) = 5.
Proof. repeat split; by vm_compute. Qed.

Lemma commit_marks_inode_dirty_witness :
  (extends inode_hole_entry
     (snd (wufs_get_blk 8 11 1000 [] 0 2 true inode_hole_entry))
     [ENewBlock 21; ECommitSlot 2 21; EMarkInodeDirty;
      ESetBufferNew BhResult; EMapBh BhResult 21] /\
   inode_touched 1000
     (snd (wufs_get_blk 8 11 1000 [] 0 2 true inode_hole_entry)) /\
   dirty_before_new
     [ENewBlock 21; ECommitSlot 2 21; EMarkInodeDirty;
      ESetBufferNew BhResult; EMapBh BhResult 21]) /\
  (extends inode_hole_entry
     (snd (wufs_get_blk 8 11 1000 [] 0 7 true inode_hole_entry))
     [EBread 20; ENewBlock 21; ECommitEntry 20 0 21; EMarkBufferDirty 20;
      EBrelse 20; ESetBufferNew BhResult; EMapBh BhResult 21] /\
   inode_untouched inode_hole_entry
     (snd (wufs_get_blk 8 11 1000 [] 0 7 true inode_hole_entry))).
Proof.
  split.
  - split; [reflexivity|].
    apply (proj1 (commit_marks_inode_dirty 8 11 1000 [] 0 2 true
                    inode_hole_entry _ eq_refl)).
    exists 2, 21. apply list_elem_of_further, list_elem_of_here.
  - split; [reflexivity|].
    apply (proj2 (commit_marks_inode_dirty 8 11 1000 [] 0 7 true
                    inode_hole_entry _ eq_refl)).
    intros i v H.
    repeat (apply elem_of_cons in H as [H|H]; [discriminate|]).
    by apply elem_of_nil in H.
Defined.

Lemma truncate_ready_large : truncate_ready 8 8 inode_shrunk_large.
Proof. unfold truncate_ready. cbn. repeat split; try lia; reflexivity. Defined.

Lemma truncate_ready_small : truncate_ready 8 8 inode_shrunk_small.
Proof. unfold truncate_ready. cbn. repeat split; try lia; reflexivity. Defined.

Lemma truncate_ready_sparse : truncate_ready 8 8 inode_sparse.
Proof. unfold truncate_ready. cbn. repeat split; try lia; reflexivity. Defined.

Lemma truncate_ready_direct_only : truncate_ready 8 8 inode_direct_only.
Proof. unfold truncate_ready. cbn. repeat split; try lia; reflexivity. Defined.

Lemma truncate_ready_unaligned : truncate_ready 8 8 inode_shrunk_unaligned.
Proof. unfold truncate_ready. cbn. repeat split; try lia; reflexivity. Defined.

Lemma truncate_ready_small_unaligned :
  truncate_ready 8 8 inode_shrunk_small_unaligned.
Proof. unfold truncate_ready. cbn. repeat split; try lia; reflexivity. Defined.

(** C4: [wufs_truncate] of [inode_shrunk_unaligned], a file cut to 60
    bytes, that is 8 blocks, of which the indirection block holds from
    entry [keepFrom = 1] on what lies beyond the size.  The entries from 1
    on are freed and zeroed and the slots of the inode are kept, as the
    specification has it; but entry 0, below [keepFrom], is not left as it was.
    The size is not on a block boundary, so [block_truncate_page] calls
    [wufs_get_blk] with [create = 0] on logical block 7, the last block of
    the file and a hole; the second half of [retrieve_indirect] does not
    look at [create], takes block 21 from the allocator and commits it to
    entry 0. *)
Theorem truncate_fills_last_block (junk : Z) :
  blocks_needed 8 (i_size inode_shrunk_unaligned) = 8 /\
  entry inode_shrunk_unaligned 20 0 = 0 /\
  entry (wufs_truncate 8 8 11 1000 (Some page_unmapped) [] junk
           inode_shrunk_unaligned) 20 0 = 21 /\
  bufs (wufs_truncate 8 8 11 1000 (Some page_unmapped) [] junk
          inode_shrunk_unaligned) !! 20 = Some [21; 0; 0; 0] /\
  ini_data (wufs_truncate 8 8 11 1000 (Some page_unmapped) [] junk
              inode_shrunk_unaligned)
  = ini_data inode_shrunk_unaligned /\
  pool inode_shrunk_unaligned = [21] /\
  pool (wufs_truncate 8 8 11 1000 (Some page_unmapped) [] junk
          inode_shrunk_unaligned) = [] /\
  extends inode_shrunk_unaligned
    (wufs_truncate 8 8 11 1000 (Some page_unmapped) [] junk
       inode_shrunk_unaligned)
    [EBlockTruncatePage; EBread 20; ENewBlock 21; ECommitEntry 20 0 21;
     EMarkBufferDirty 20; EBrelse 20; ESetBufferNew BhResult;
     EMapBh BhResult 21; EBread 20; EFreeBlock 22; EFreeBlock 23;
     EFreeBlock 24; EMarkBufferDirty 20; EBrelse 20; EMarkInodeDirty].
Proof. repeat split. Qed.

Lemma truncate_indirect_slot_unchecked_witness :
  (truncate_ready 8 8 inode_sparse /\
   rd (ini_data inode_sparse) 7 = 0 /\
   entry inode_sparse 0 2 = 7 /\
   extends inode_sparse
     (wufs_truncate 8 8 11 1000 (Some page_unmapped) [] 0 inode_sparse)
     [EBlockTruncatePage; EBread 0; EFreeBlock 7; EFreeBlock 8;
      EMarkBufferDirty 0; EBrelse 0; EMarkInodeDirty] /\
   (EBread 0 ∈ [EBlockTruncatePage; EBread 0; EFreeBlock 7; EFreeBlock 8;
                EMarkBufferDirty 0; EBrelse 0; EMarkInodeDirty]) /\
   (EMarkBufferDirty 0 ∈
      [EBlockTruncatePage; EBread 0; EFreeBlock 7; EFreeBlock 8;
       EMarkBufferDirty 0; EBrelse 0; EMarkInodeDirty]) /\
   entry (wufs_truncate 8 8 11 1000 (Some page_unmapped) [] 0 inode_sparse)
     0 2 = 0 /\
   (EFreeBlock 7 ∈ [EBlockTruncatePage; EBread 0; EFreeBlock 7; EFreeBlock 8;
                    EMarkBufferDirty 0; EBrelse 0; EMarkInodeDirty])) /\
  (truncate_ready 8 8 inode_direct_only /\
   rd (ini_data inode_direct_only) 7 = 0 /\
   extends inode_direct_only
     (wufs_truncate 8 8 11 1000 (Some page_unmapped) [] 0 inode_direct_only)
     [EBlockTruncatePage; EFreeBlock 12; EMarkInodeDirty] /\
   bufs (wufs_truncate 8 8 11 1000 (Some page_unmapped) [] 0
           inode_direct_only)
   = bufs inode_direct_only).
Proof.
  split.
  - split; [exact truncate_ready_sparse|]. split; [reflexivity|].
    split; [reflexivity|]. split; [reflexivity|].
    destruct (truncate_indirect_slot_unchecked 8 8 11 1000
                (Some page_unmapped) [] 0 inode_sparse
                truncate_ready_sparse _ eq_refl) as (_ & _ & Hsparse).
    destruct (Hsparse eq_refl eq_refl) as (Hread & Hdirty & _ & Hentries).
    split; [exact Hread|]. split; [exact Hdirty|].
    destruct (Hentries 2) as [Hzero Hfreed];
      [vm_compute; split; [discriminate | reflexivity]|].
    split; [exact Hzero|]. apply Hfreed. discriminate.
  - split; [exact truncate_ready_direct_only|]. split; [reflexivity|].
    split; [reflexivity|].
    destruct (truncate_indirect_slot_unchecked 8 8 11 1000
                (Some page_unmapped) [] 0 inode_direct_only
                truncate_ready_direct_only _ eq_refl) as (Hsmall & _ & _).
    apply Hsmall; [vm_compute; discriminate | reflexivity].
Defined.

(** ** The further properties on the inodes of the examples *)

(** [inode_shrunk_large], cut to a size on a block boundary, and
    [inode_shrunk_small_unaligned], cut to a size that is not. *)
Lemma truncate_frees_beyond_size_witness :
  truncate_ready 8 8 inode_shrunk_large /\
  truncate_ready 8 8 inode_shrunk_small_unaligned /\
  (ini_data (wufs_truncate 8 8 11 1000 (Some page_unmapped) [] 0
               inode_shrunk_large)
     = [10; 11; 12; 13; 14; 15; 16; 20] /\
   entry (wufs_truncate 8 8 11 1000 (Some page_unmapped) [] 0
            inode_shrunk_large) 20 1 = 22 /\
   entry (wufs_truncate 8 8 11 1000 (Some page_unmapped) [] 0
            inode_shrunk_large) 20 3 = 0) /\
  (rd (ini_data (wufs_truncate 8 8 11 1000 (Some page_unmapped) [] 0
                   inode_shrunk_small_unaligned)) 1 = 11 /\
   rd (ini_data (wufs_truncate 8 8 11 1000 (Some page_unmapped) [] 0
                   inode_shrunk_small_unaligned)) 2 = 0 /\
   rd (ini_data (wufs_truncate 8 8 11 1000 (Some page_unmapped) [] 0
                   inode_shrunk_small_unaligned)) 7 = 0 /\
   entry (wufs_truncate 8 8 11 1000 (Some page_unmapped) [] 0
            inode_shrunk_small_unaligned) 20 2 = 0).
Proof.
  split; [exact truncate_ready_large|].
  split; [exact truncate_ready_small_unaligned|].
  split.
  - destruct (truncate_frees_beyond_size 8 8 11 1000 (Some page_unmapped) [] 0
                inode_shrunk_large truncate_ready_large) as (_ & _ & Hlarge).
    destruct (Hlarge eq_refl) as (Hi & Hz & _ & Hk & _).
    split; [exact Hi|]. split; [exact (Hk (or_introl eq_refl))|].
    apply (Hz 3); vm_compute; split; [discriminate | reflexivity].
  - destruct (truncate_frees_beyond_size 8 8 11 1000 (Some page_unmapped) [] 0
                inode_shrunk_small_unaligned truncate_ready_small_unaligned)
      as (_ & Hsmall & _).
    destruct Hsmall as (Hz & Hk & Hind & He & _).
    { vm_compute. discriminate. }
    split; [exact (Hk 1 eq_refl)|].
    split; [apply (Hz 2); vm_compute; split; [discriminate | reflexivity]|].
    split; [exact Hind|].
    apply He; [discriminate|].
    vm_compute; split; [discriminate | reflexivity].
Defined.

(** [wufs_truncate] of [inode_shrunk_large], at a size on a block boundary,
    leaves the allocator alone. *)
Lemma truncate_allocates_in_callback_only_witness :
  truncate_ready 8 8 inode_shrunk_large /\
  pool (wufs_truncate 8 8 11 1000 (Some page_unmapped) [] 0 inode_shrunk_large)
  = pool inode_shrunk_large.
Proof.
  split; [exact truncate_ready_large|].
  destruct (truncate_allocates_in_callback_only 8 8 11 1000
              (Some page_unmapped) [] 0 inode_shrunk_large
              truncate_ready_large) as (new & _ & _ & _ & Hquiet & _).
  apply Hquiet. left. reflexivity.
Defined.


(** Logical block 9 of [inode_shrunk_large], a hole in its indirection
    block, is still a hole after [wufs_truncate]; so is logical block 3 of
    [inode_shrunk_small], a hole among the direct slots. *)
Lemma truncate_keeps_holes_witness :
  (hole 8 inode_shrunk_large 9 = true /\
   hole 8 (wufs_truncate 8 8 11 1000 (Some page_unmapped) [] 0
             inode_shrunk_large) 9 = true) /\
  (hole 8 inode_shrunk_small 3 = true /\
   hole 8 (wufs_truncate 8 8 11 1000 (Some page_unmapped) [] 0
             inode_shrunk_small) 3 = true).
Proof.
  split; (split; [reflexivity|]).
  - apply (truncate_keeps_holes 8 8 11 1000 (Some page_unmapped) [] 0
             inode_shrunk_large 9 truncate_ready_large); [reflexivity|].
    right. left. reflexivity.
  - apply (truncate_keeps_holes 8 8 11 1000 (Some page_unmapped) [] 0
             inode_shrunk_small 3 truncate_ready_small); [reflexivity|].
    right. right. lia.
Defined.

(** After a first [wufs_truncate] of [inode_shrunk_unaligned] has mapped
    the last block of the file, a second one frees nothing and changes no
    block. *)
Lemma truncate_twice_frees_nothing_witness :
  truncate_ready 8 8 inode_shrunk_unaligned /\
  bufs (wufs_truncate 8 8 11 1000 (Some page_unmapped) [] 0
          (wufs_truncate 8 8 11 1000 (Some page_unmapped) [] 0
             inode_shrunk_unaligned))
  = bufs (wufs_truncate 8 8 11 1000 (Some page_unmapped) [] 0
            inode_shrunk_unaligned) /\
  exists new,
    extends
      (wufs_truncate 8 8 11 1000 (Some page_unmapped) [] 0
         inode_shrunk_unaligned)
      (wufs_truncate 8 8 11 1000 (Some page_unmapped) [] 0
         (wufs_truncate 8 8 11 1000 (Some page_unmapped) [] 0
            inode_shrunk_unaligned))
      new /\
    forall v, EFreeBlock v ∉ new.
Proof.
  split; [exact truncate_ready_unaligned|].
  destruct (truncate_twice_frees_nothing 8 8 11 1000
              (Some page_unmapped) (Some page_unmapped) [] [] 0 0
              inode_shrunk_unaligned truncate_ready_unaligned)
    as (_ & _ & _ & Hquiet).
  apply Hquiet. right. right. right. vm_compute. discriminate.
Defined.

(** Logical block 2 of [inode_hole_entry], created while a competitor
    stores block 77 into the same slot: the call hands its own block 21
    back, and the lookup that follows finds block 77. *)
Lemma direct_create_then_lookup_witness :
  fst (wufs_get_blk 8 11 1000 [Some 77] 0 2 true inode_hole_entry) = 0 /\
  fst (wufs_get_blk 8 11 1000 [] 0 2 false
         (snd (wufs_get_blk 8 11 1000 [Some 77] 0 2 true inode_hole_entry)))
  = 0 /\
  b_blocknr
    (bh (snd (wufs_get_blk 8 11 1000 [] 0 2 false
                (snd (wufs_get_blk 8 11 1000 [Some 77] 0 2 true
                        inode_hole_entry)))))
  = b_blocknr
      (bh (snd (wufs_get_blk 8 11 1000 [Some 77] 0 2 true inode_hole_entry))).
Proof.
  split; [reflexivity|].
  assert (Hpool : pool_ok inode_hole_entry)
    by (unfold pool_ok; cbn; repeat constructor).
  destruct (direct_create_then_lookup 8 11 1000 [Some 77] [] 0 0 2 false
              inode_hole_entry ltac:(lia) ltac:(lia) ltac:(cbn; lia) Hpool
              eq_refl)
    as (H1 & H2 & _).
  split; [exact H1 | exact H2].
Defined.

(** Logical block 7 of [inode_hole_entry], the first entry of its
    indirection block: created, then looked up. *)
Lemma indirect_create_then_lookup_witness :
  fst (wufs_get_blk 8 11 1000 [] 0 7 true inode_hole_entry) = 0 /\
  fst (wufs_get_blk 8 11 1000 [] 0 7 false
         (snd (wufs_get_blk 8 11 1000 [] 0 7 true inode_hole_entry)))
  = 0 /\
  b_blocknr
    (bh (snd (wufs_get_blk 8 11 1000 [] 0 7 false
                (snd (wufs_get_blk 8 11 1000 [] 0 7 true inode_hole_entry)))))
  = b_blocknr
      (bh (snd (wufs_get_blk 8 11 1000 [] 0 7 true inode_hole_entry))).
Proof.
  split; [reflexivity|].
  assert (Hpool : pool_ok inode_hole_entry)
    by (unfold pool_ok; cbn; repeat constructor).
  assert (Hin : entry_in_block inode_hole_entry
                  (rd (ini_data inode_hole_entry) (8 - 1)) (7 - (8 - 1)))
    by (exists [0; 0; 0; 0]; split; [reflexivity | cbn; lia]).
  destruct (indirect_create_then_lookup 8 11 1000 [] [] 0 0 7 true false
              inode_hole_entry ltac:(lia) ltac:(lia)
              ltac:(vm_compute; discriminate) Hin Hpool eq_refl)
    as (H1 & H2 & _).
  split; [exact H1 | exact H2].
Defined.

(** A file of 17 bytes needs 3 blocks of 8 bytes. *)
Lemma wufs_blocks_ceiling_witness :
  (wufs_blocks 17 8 - 1) * 8 < 17 <= wufs_blocks 17 8 * 8.
Proof. apply (wufs_blocks_ceiling 17 8); lia. Defined.

(** With blocks of one byte, a file of 2^32 + 5 bytes counts 5 blocks. *)
Lemma wufs_blocks_wraps_witness :
  wufs_blocks (5 + 4294967296 * 1) 1 = wufs_blocks 5 1.
Proof. apply (wufs_blocks_wraps 5 1); lia. Defined.

(** After [wufs_truncate] of [inode_shrunk_small], 2 blocks long, a lookup
    of logical block 4, which was mapped to block 14, returns [-EIO]; so
    does a lookup of logical block 7, in the indirect range. *)
Lemma truncate_then_lookup_witness :
  wufs_get_blk 8 11 1000 [] 0 4 false
    (wufs_truncate 8 8 11 1000 (Some page_unmapped) [] 0 inode_shrunk_small)
  = (- EIO,
     wufs_truncate 8 8 11 1000 (Some page_unmapped) [] 0 inode_shrunk_small) /\
  wufs_get_blk 8 11 1000 [] 0 7 false
    (wufs_truncate 8 8 11 1000 (Some page_unmapped) [] 0 inode_shrunk_small)
  = (- EIO,
     wufs_truncate 8 8 11 1000 (Some page_unmapped) [] 0 inode_shrunk_small).
Proof.
  split.
  - apply (truncate_then_lookup 8 8 11 1000 (Some page_unmapped) [] [] 0 0 4
             inode_shrunk_small truncate_ready_small); vm_compute; discriminate.
  - apply (truncate_then_lookup 8 8 11 1000 (Some page_unmapped) [] [] 0 0 7
             inode_shrunk_small truncate_ready_small); vm_compute; discriminate.
Defined.
